(** * app.py: caption filter, identifier extractor and completion client

    A shallow embedding of the functions of [app.py] and the proofs of the
    properties stated about them.

    A Python [str] is a sequence of Unicode code points: it is modelled as a
    list of code points ([N]).  String literals of the source are written
    with [py "..."], which maps every character of a Rocq string to its
    code point. *)

From Stdlib Require Import Ascii String.
From Stdlib Require Import List NArith Arith Bool Lia.
Import ListNotations.

Set Implicit Arguments.

(** ** Python strings *)

Module PyStr.

Definition char := N.
Definition str := list char.

Definition py (s : string) : str := map N_of_ascii (list_ascii_of_string s).

Definition chr_eqb (a b : char) : bool := N.eqb a b.

Fixpoint str_eqb (a b : str) : bool :=
  match a, b with
  | [], [] => true
  | x :: a', y :: b' => chr_eqb x y && str_eqb a' b'
  | _, _ => false
  end.

(** The newline character, ["\n"]. *)
Definition nl : char := 10%N.

(** [str.isspace] on one code point, as [str.strip()] uses it: the
    characters of general category Zs or of bidirectional class WS, B or S. *)
Definition isspace (c : char) : bool :=
  ((9 <=? c) && (c <=? 13)          (* \t \n \v \f \r *)
   || (28 <=? c) && (c <=? 32)      (* FS GS RS US and the space *)
   || (c =? 133) || (c =? 160)      (* NEL, no-break space *)
   || (c =? 5760)                   (* U+1680 *)
   || (8192 <=? c) && (c <=? 8202)  (* U+2000 .. U+200A *)
   || (c =? 8232) || (c =? 8233)    (* U+2028, U+2029 *)
   || (c =? 8239) || (c =? 8287)    (* U+202F, U+205F *)
   || (c =? 12288))%N.              (* U+3000 *)

Fixpoint dropwhile (f : char -> bool) (s : str) : str :=
  match s with
  | [] => []
  | c :: t => if f c then dropwhile f t else s
  end.

Fixpoint takewhile (f : char -> bool) (s : str) : str :=
  match s with
  | [] => []
  | c :: t => if f c then c :: takewhile f t else []
  end.

Definition lstrip (s : str) : str := dropwhile isspace s.
Definition rstrip (s : str) : str := rev (dropwhile isspace (rev s)).

(** [s.strip()] *)
Definition strip (s : str) : str := rstrip (lstrip s).

(** [s.split("\n")]: the pieces between newlines; never an empty list. *)
Fixpoint split_nl (s : str) : list str :=
  match s with
  | [] => [[]]
  | c :: t =>
      if chr_eqb c nl then [] :: split_nl t
      else match split_nl t with
           | l :: ls => (c :: l) :: ls
           | [] => [[c]]
           end
  end.

(** ["\n".join(ls)] *)
Fixpoint join_nl (ls : list str) : str :=
  match ls with
  | [] => []
  | [l] => l
  | l :: rest => l ++ nl :: join_nl rest
  end.

(** [s.startswith(p)] *)
Fixpoint startswith (p s : str) : bool :=
  match p, s with
  | [], _ => true
  | _ :: _, [] => false
  | x :: p', y :: s' => chr_eqb x y && startswith p' s'
  end.

(** [p in s], the substring test. *)
Fixpoint contains (p s : str) : bool :=
  startswith p s ||
  match s with
  | [] => false
  | _ :: t => contains p t
  end.

(** Truth value of a string: non-empty. *)
Definition truthy (s : str) : bool :=
  match s with [] => false | _ :: _ => true end.

(** Strings made of whitespace only. *)
Definition allws (w : str) : Prop := Forall (fun c => isspace c = true) w.

End PyStr.
Import PyStr.

(** ** The caption filter, [filter_subtitles] *)

Module Filter.

(** The three loop variables of [filter_subtitles]. *)
Record state := mkState {
  past_header : bool;
  content_lines : list str;
  capture_next : bool
}.

Definition init : state := mkState false [] false.

Definition arrow : str := py "-->".
Definition lt_tag : str := py "<".
Definition gt_tag : str := py ">".

(** [content_lines[-1]], when the list is not empty. *)
Definition last_line (cl : list str) : option str :=
  match rev cl with
  | [] => None
  | l :: _ => Some l
  end.

(** [not content_lines or (content_lines and content_lines[-1] != line)] *)
Definition should_append (cl : list str) (line : str) : bool :=
  match last_line cl with
  | None => true
  | Some l => negb (str_eqb l line)
  end.

(** The test of the capturing [if], apart from the flag. *)
Definition eligible (line : str) : bool :=
  truthy line && negb (contains lt_tag line) && negb (contains gt_tag line).

(** One iteration of the [for] loop, on the raw (not yet stripped) line. *)
Definition step (st : state) (raw : str) : state :=
  let line := strip raw in
  if contains arrow line then
    mkState true (content_lines st) true
  else if negb (past_header st) then st
  else if capture_next st && eligible line then
    mkState (past_header st)
            (if should_append (content_lines st) line
             then content_lines st ++ [line]
             else content_lines st)
            false
  else st.

Definition run (st : state) (lines : list str) : state :=
  fold_left step lines st.

(** [lines = subtitle_str.strip().split("\n")] *)
Definition lines_of (subtitle_str : str) : list str :=
  split_nl (strip subtitle_str).

(** The value of [content_lines] when the loop ends. *)
Definition captured (subtitle_str : str) : list str :=
  content_lines (run init (lines_of subtitle_str)).

Definition filter_subtitles (subtitle_str : str) : str :=
  join_nl (captured subtitle_str).

(** *** Vocabulary of the statements about the filter *)

(** The lines of the returned text, [filter_subtitles(s).split("\n")]. *)
Definition output_lines (subtitle_str : str) : list str :=
  split_nl (filter_subtitles subtitle_str).

(** A timing marker: a line in which the loop finds ["-->"]. *)
Definition is_marker (raw : str) : bool := contains arrow (strip raw).

(** A line the capturing [if] accepts when the flag is set. *)
Definition is_candidate (raw : str) : bool := eligible (strip raw).

(** The first line of a cue's body that the capturing [if] accepts, as the
    loop sees it (stripped). *)
Definition first_candidate (body : list str) : option str :=
  find eligible (map strip body).

(** A cue block is a timing marker and the lines up to the next marker. *)
Definition cue := (str * list str)%type.

Definition cue_lines (c : cue) : list str := fst c :: snd c.

Definition well_formed_cue (c : cue) : Prop :=
  is_marker (fst c) = true /\ forall l, In l (snd c) -> is_marker l = false.

(** No element equals its predecessor. *)
Definition no_adjacent_dup (ls : list str) : Prop :=
  forall pre a b post, ls = pre ++ a :: b :: post -> a <> b.

(** The lines the loop does not skip as blank, as it sees them. *)
Definition seen_lines (lines : list str) : list str :=
  filter truthy (map strip lines).

(** What every captured line is: stripped, accepted by the capturing [if],
    and free of newlines. *)
Definition clean_line (l : str) : Prop :=
  strip l = l /\ eligible l = true /\ ~ In nl l.

(** A document that puts the marker line [m] before each of the lines. *)
Definition wrap (m : str) (ls : list str) : str :=
  join_nl (flat_map (fun l => [m; l]) ls).

(** A document with a header and two cues that start with the same line. *)
Definition doc_two_cues : str :=
  join_nl [py "WEBVTT"; py "00:00:00.000 --> 00:00:02.000"; py "hello world";
           py "00:00:02.000 --> 00:00:04.000"; py "<c>hello</c>";
           py "hello world"; py "and more"].

End Filter.
Import Filter.

(** ** The identifier extractor, [extract_video_id] *)

Module Extract.

Section WithUnicodeTable.

(** [str.isalnum] on the code points from 128 on: the table of the Unicode
    character database, which the source takes from the interpreter. *)
Variable unicode_isalnum : char -> bool.

Definition ascii_isalnum (c : char) : bool :=
  ((48 <=? c) && (c <=? 57)         (* 0-9 *)
   || (65 <=? c) && (c <=? 90)      (* A-Z *)
   || (97 <=? c) && (c <=? 122))%N. (* a-z *)

(** [\w] of a [str] pattern: alphanumeric or the underscore. *)
Definition is_word (c : char) : bool :=
  (if (c <? 128)%N then ascii_isalnum c else unicode_isalnum c)
  || chr_eqb c 95%N.

(** The character class [[\w-]]. *)
Definition is_ident (c : char) : bool := is_word c || chr_eqb c 45%N.

Definition marker : str := py "v=".

(** The lookbehind [(?<=v=)] at position [i]: the two characters before
    position [i] are ["v="]. *)
Definition lookbehind (s : str) (i : nat) : bool :=
  (length marker <=? i) &&
  str_eqb (firstn (length marker) (skipn (i - length marker) s)) marker.

(** The match of [(?<=v=)[\w-]+] that starts at position [i], if any: the
    greedy [+] takes the longest run, which must not be empty. *)
Definition match_at (s : str) (i : nat) : option str :=
  if lookbehind s i then
    match takewhile is_ident (skipn i s) with
    | [] => None
    | r => Some r
    end
  else None.

Fixpoint first_match (s : str) (positions : list nat) : option str :=
  match positions with
  | [] => None
  | i :: rest =>
      match match_at s i with
      | Some m => Some m
      | None => first_match s rest
      end
  end.

(** [re.search(r"(?<=v=)[\w-]+", s)] and [.group(0)] of its result: the
    start positions are tried from left to right. *)
Definition re_search (s : str) : option str :=
  first_match s (seq 0 (S (length s))).

Definition extract_video_id (url_or_id : str) : str :=
  match re_search url_or_id with
  | Some m => m
  | None => url_or_id
  end.

(** [s] has ["v="] at offset [length a], followed by the character [c]. *)
Definition occurrence (s a : str) (c : char) : Prop :=
  exists t, s = a ++ marker ++ c :: t.

(** All characters are in [[\w-]]. *)
Definition all_ident (s : str) : bool := forallb is_ident s.

End WithUnicodeTable.

(** A table without alphanumerics beyond ASCII, to evaluate ASCII inputs. *)
Definition no_table : char -> bool := fun _ => false.

End Extract.

(** ** The text-completion client, [format_with_clarifai_api] *)

Module Client.

Inductive exception :=
| KeyError
| TypeError
| IndexError
| StreamlitSecretNotFoundError.

(** One entry of the [models] dictionary. *)
Record model_config := mkModel {
  USER_ID : str;
  APP_ID : str;
  MODEL_ID : str;
  MODEL_VERSION_ID : str
}.

(** The [PostModelOutputsRequest] the function builds. *)
Record request := mkRequest {
  req_user_id : str;
  req_app_id : str;
  req_model_id : str;
  req_version_id : str;
  req_raw : str
}.

(** What the function reads of the response: [status.code],
    [status.description] and [outputs[i].data.text.raw]. *)
Record response := mkResponse {
  status_code : N;
  status_description : str;
  outputs : list str
}.

(** What the function does to the outside, in order. *)
Inductive event :=
| StError (msg : str)
| GetGrpcChannel
| PostModelOutputs (req : request) (authorization : str).

(** What the function reads from the outside. *)
(** The secrets store: no [secrets.toml] at all, or a file with or without
    an entry for ['CLARIFAI_PAT']. *)
Inductive secrets_store :=
| NoSecretsFile
| SecretsFile (CLARIFAI_PAT : option str).

Record world := mkWorld {
  environ_CLARIFAI_PAT : option str;
  secrets : secrets_store;
  hosted_model : request -> str -> response
}.

Inductive result (A : Type) :=
| Returned (a : A)
| Raised (e : exception).
Arguments Returned {A} a.
Arguments Raised {A} e.

(** Computations that log events and may raise. *)
Definition M (A : Type) : Type := list event -> result A * list event.

Definition ret {A} (a : A) : M A := fun log => (Returned a, log).

Definition bind {A B} (m : M A) (k : A -> M B) : M B :=
  fun log =>
    match m log with
    | (Returned a, log') => k a log'
    | (Raised e, log') => (Raised e, log')
    end.

Definition raise {A} (e : exception) : M A := fun log => (Raised e, log).

Definition emit (ev : event) : M unit := fun log => (Returned tt, log ++ [ev]).

(** [try: m except KeyError: h] *)
Definition try_except_KeyError {A} (m : M A) (h : M A) : M A :=
  fun log =>
    match m log with
    | (Raised KeyError, log') => h log'
    | r => r
    end.

Notation "x <- m ;; k" := (bind m (fun x => k))
  (at level 61, m at next level, right associativity).
Notation "m ;;; k" := (bind m (fun _ => k))
  (at level 61, right associativity).

Definition format_prompt : str :=
  py "[INST] Below is the transcript of a video. Please correct the capitalization and "
  ++ nl ::
  py "punctuation, including making separate paragraphs, without changing any of the text. If a word "
  ++ nl ::
  py "is misspelled, correct the word, and if a word does not exist take your best guess as to the "
  ++ nl ::
  py "correct word. Only return the corrected text without commentary. [/INST]".

Definition video_prompt : str :=
  py "[INST] Write a YouTube video title and video description for the following video script. [/INST]".

Definition missing_pat_message : str :=
  py "Failed to retrieve the Clarifai Personal Access Token!".

Definition api_error_prefix : str := py "Error from Clarifai API: ".

(** Truth value of a value that is [None] or a string. *)
Definition truthy_opt (v : option str) : bool :=
  match v with
  | None => false
  | Some s => truthy s
  end.

(** The value the secrets store holds for ['CLARIFAI_PAT'], if it holds
    one. *)
Definition secrets_CLARIFAI_PAT (w : world) : option str :=
  match secrets w with
  | SecretsFile (Some v) => Some v
  | _ => None
  end.

(** [st.secrets['CLARIFAI_PAT']]: a file without the key raises [KeyError];
    without any secrets file the access raises
    [StreamlitSecretNotFoundError], a [FileNotFoundError] and not a
    [KeyError]. *)
Definition secrets_lookup (w : world) : M (option str) :=
  match secrets w with
  | SecretsFile (Some v) => ret (Some v)
  | SecretsFile None => raise KeyError
  | NoSecretsFile => raise StreamlitSecretNotFoundError
  end.

(** ['Key ' + PAT]: adding [None] to a string raises [TypeError]. *)
Definition key_plus (PAT : option str) : M str :=
  match PAT with
  | Some p => ret (py "Key " ++ p)
  | None => raise TypeError
  end.

(** [outputs[0]] *)
Definition first_output (r : response) : M str :=
  match outputs r with
  | o :: _ => ret o
  | [] => raise IndexError
  end.

Section WithService.

(** [status_code_pb2.SUCCESS], a constant of the client library. *)
Variable SUCCESS : N.

Variable w : world.

(** The module-level [selected_model]. *)
Variable selected_model : model_config.

(** The request for [full_prompt = prompt + '\n' + raw_text + '\n']. *)
Definition build_request (raw_text prompt : str) : request :=
  let full_prompt := prompt ++ nl :: raw_text ++ [nl] in
  mkRequest (USER_ID selected_model) (APP_ID selected_model)
            (MODEL_ID selected_model) (MODEL_VERSION_ID selected_model)
            full_prompt.

Definition format_with_clarifai_api (raw_text prompt : str) : M (option str) :=
  PAT <- ret (environ_CLARIFAI_PAT w) ;;
  PAT <- (if negb (truthy_opt PAT) then
            try_except_KeyError
              (secrets_lookup w)
              (emit (StError missing_pat_message) ;;; ret None)
          else ret PAT) ;;
  emit GetGrpcChannel ;;;
  authorization <- key_plus PAT ;;
  let req := build_request raw_text prompt in
  emit (PostModelOutputs req authorization) ;;;
  let post_model_outputs_response := hosted_model w req authorization in
  if negb (N.eqb (status_code post_model_outputs_response) SUCCESS) then
    emit (StError (api_error_prefix
                   ++ status_description post_model_outputs_response)) ;;;
    ret None
  else
    output <- first_output post_model_outputs_response ;;
    ret (if truthy output then Some (strip output) else None).

(** The values the script keeps between its steps: [subtitles],
    [st.session_state.formatted_text] and [video_description]. *)
Record session := mkSession {
  subtitles : str;
  formatted_text : option str;
  video_description : option str
}.

(** The body of [if st.button("Punctuate Script")]. *)
Definition punctuate_script (ss : session) : M session :=
  r <- format_with_clarifai_api (subtitles ss) format_prompt ;;
  ret (mkSession (subtitles ss) r (video_description ss)).

(** The body of [if st.button("Generate title and description")], which is
    reached only when [formatted_text] is a non-empty string. *)
Definition generate_title (ss : session) : M session :=
  match formatted_text ss with
  | Some ft =>
      r <- format_with_clarifai_api ft video_prompt ;;
      ret (mkSession (subtitles ss) (formatted_text ss) r)
  | None => ret ss
  end.

End WithService.

(** Whether a completion call was issued. *)
Definition is_post (ev : event) : bool :=
  match ev with
  | PostModelOutputs _ _ => true
  | _ => false
  end.

(** The completion calls of a log. *)
Definition completion_calls (log : list event) : list event :=
  filter is_post log.

(** The entry ['Llama2-7b-chat'] of [models]. *)
Definition llama2_7b : model_config :=
  mkModel (py "meta") (py "Llama-2") (py "Llama2-7b-chat")
          (py "e52af5d6bc22445aa7a6761f327f7129").


(** A world whose only credential is an empty entry of the secrets file. *)
Definition world_empty_secret : world :=
  mkWorld None (SecretsFile (Some []))
          (fun _ _ => mkResponse 10000 (py "Ok") [py "text"]).


(** A world with the credential in the environment and a hosted model that
    rejects every request. *)
Definition world_rejecting : world :=
  mkWorld (Some (py "pat")) (SecretsFile None)
          (fun _ _ => mkResponse 11102 (py "Invalid API key") []).

End Client.

(** ** The transcript as a function of the cues *)

Module Cues.

(** The lines of a document, read as a header and its cue blocks: every
    marker opens a cue that runs to the next marker. *)
Fixpoint parse_cues (lines : list str) : list str * list cue :=
  match lines with
  | [] => ([], [])
  | l :: rest =>
      let (body, cues) := parse_cues rest in
      if is_marker l then ([], (l, body) :: cues) else (l :: body, cues)
  end.

(** The first candidate line of each cue that has one, in order. *)
Definition candidates (cues : list cue) : list str :=
  flat_map (fun c => match first_candidate (snd c) with
                     | Some l => [l]
                     | None => []
                     end) cues.

(** [ls] without the elements that repeat their predecessor, [prev] being
    the element before the first. *)
Fixpoint squeeze_after (prev : option str) (ls : list str) : list str :=
  match ls with
  | [] => []
  | a :: rest =>
      if match prev with Some p => str_eqb p a | None => false end
      then squeeze_after prev rest
      else a :: squeeze_after (Some a) rest
  end.

Definition squeeze (ls : list str) : list str := squeeze_after None ls.

(** The number of timing markers among the lines. *)
Definition count_markers (lines : list str) : nat :=
  length (filter is_marker lines).

(** [a] is [b] with some elements left out. *)
Inductive subseq : list str -> list str -> Prop :=
| subseq_nil : subseq [] []
| subseq_skip a b y : subseq a b -> subseq a (y :: b)
| subseq_take a b x : subseq a b -> subseq (x :: a) (x :: b).

End Cues.

(** ** The caption fetcher, [download_subtitles] *)

Module Fetch.

Definition cr : char := 13%N.
Definition space : char := 32%N.

(** [s.replace(old, new)] for a pattern [old] of one character. *)
Definition replace_char (old : char) (new : str) (s : str) : str :=
  flat_map (fun c => if chr_eqb c old then new else [c]) s.

(** [" ".join(ls)] *)
Fixpoint join_space (ls : list str) : str :=
  match ls with
  | [] => []
  | [l] => l
  | l :: rest => l ++ space :: join_space rest
  end.

Inductive exception :=
| DownloadError (msg : str)
| FileNotFoundError.

(** [str(e)] *)
Definition message (e : exception) : str :=
  match e with
  | DownloadError msg => msg
  | FileNotFoundError =>
      py "[Errno 2] No such file or directory: '/tmp/temp_subtitle_file.en.vtt'"
  end.

(** The file ["/tmp/temp_subtitle_file.en.vtt"]: absent, or the text that
    [file.read()] gives. *)
Definition temp_file := option str.

(** [ydl.download([video_id])], as far as the function observes it: it may
    raise, and it leaves the file in some state. *)
Definition downloader := str -> temp_file -> option exception * temp_file.

Inductive result (A : Type) :=
| Returned (a : A)
| Raised (e : exception).
Arguments Returned {A} a.
Arguments Raised {A} e.

(** The expression of the [return]. *)
Definition flatten (content : str) : str :=
  replace_char cr [] (replace_char nl [space] (filter_subtitles content)).

Definition download_subtitles (ydl : downloader) (video_id : str)
    (file : temp_file) : result str * temp_file :=
  match ydl video_id file with
  | (Some e, file1) => (Raised e, file1)
  | (None, file1) =>
      match file1 with
      | None => (Raised FileNotFoundError, file1)
      | Some content =>
          (* os.remove(full_temp_file_path) *)
          (Returned (flatten content), None)
      end
  end.

End Fetch.

(** ** [extract_string] *)

Module Quoted.

Definition quote : char := 34%N.

(** The three quotes of the pattern. *)
Definition triple : str := [quote; quote; quote].

(** The lazy [(.*?)] followed by the closing quotes, with [re.DOTALL]: the
    shortest prefix of [rest], of any characters, after which the closing
    quotes stand. *)
Fixpoint lazy_until (close rest : str) : option str :=
  if startswith close rest then Some []
  else match rest with
       | [] => None
       | c :: t =>
           match lazy_until close t with
           | Some g => Some (c :: g)
           | None => None
           end
       end.

(** The group 1 of the match that starts at position [i], if any. *)
Definition match_at (s : str) (i : nat) : option str :=
  if startswith triple (skipn i s)
  then lazy_until triple (skipn (i + length triple) s)
  else None.

Fixpoint first_match (s : str) (positions : list nat) : option str :=
  match positions with
  | [] => None
  | i :: rest =>
      match match_at s i with
      | Some g => Some g
      | None => first_match s rest
      end
  end.

(** [match.group(1) if match else None] *)
Definition extract_string (s : str) : option str :=
  first_match s (seq 0 (S (length s))).

End Quoted.

(** ** The script *)

Module Script.

Import Client.

(** [f"https://www.youtube.com/watch?v={video_id}"] *)
Definition youtube_url (video_id : str) : str :=
  py "https://www.youtube.com/watch?v=" ++ video_id.

(** What a run of the script shows and calls, in order. *)
Inductive ui_event :=
| UiVideo (url : str)
| UiTextArea (label : str) (value : option str)
| UiError (msg : str)
| UiClient (ev : event).

(** A run ends normally or with the exception of a completion step. *)
Definition S (A : Type) : Type := list ui_event -> result A * list ui_event.

Definition sret {A} (a : A) : S A := fun log => (Returned a, log).

Definition sbind {A B} (m : S A) (k : A -> S B) : S B :=
  fun log =>
    match m log with
    | (Returned a, log') => k a log'
    | (Raised e, log') => (Raised e, log')
    end.

Definition show (ev : ui_event) : S unit :=
  fun log => (Returned tt, log ++ [ev]).

(** A computation of the client, its events shown as they happen. *)
Definition call {A} (m : M A) : S A :=
  fun log =>
    match m [] with
    | (r, evs) => (r, log ++ map UiClient evs)
    end.

Notation "x <~ m ;; k" := (sbind m (fun x => k))
  (at level 61, m at next level, right associativity).
Notation "m ;;~ k" := (sbind m (fun _ => k))
  (at level 61, right associativity).

(** What a run reads: the text box, the two buttons (consulted only where
    the script reaches them), the file and the stored
    [st.session_state.formatted_text] ([None]: the key is not there). *)
Record inputs := mkInputs {
  url_or_id : str;
  punctuate_clicked : bool;
  generate_clicked : bool;
  temp_file_before : Fetch.temp_file;
  stored_formatted_text : option (option str)
}.

(** What a run leaves: the file and [st.session_state.formatted_text]. *)
Record outcome := mkOutcome {
  temp_file_after : Fetch.temp_file;
  formatted_text_after : option str
}.

Definition an_error_occurred : str := py "An error occurred: ".

Section WithServices.

Variable unicode_isalnum : char -> bool.
Variable ydl : Fetch.downloader.
Variable SUCCESS : N.
Variable w : world.
Variable selected_model : model_config.

(** [if url_or_id: ...]: the video, the download and what it gives;
    [except Exception as e] shows the message and leaves [subtitles] at
    [None]. *)
Definition fetch_step (i : inputs) : S (option str * Fetch.temp_file) :=
  if truthy (url_or_id i) then
    let video_id := Extract.extract_video_id unicode_isalnum (url_or_id i) in
    show (UiVideo (youtube_url video_id)) ;;~
    match Fetch.download_subtitles ydl video_id (temp_file_before i) with
    | (Fetch.Returned subtitles, file) =>
        show (UiTextArea (py "Subtitles:") (Some subtitles)) ;;~
        sret (Some subtitles, file)
    | (Fetch.Raised e, file) =>
        show (UiError (an_error_occurred ++ Fetch.message e)) ;;~
        sret (None, file)
    end
  else sret (None, temp_file_before i).

(** [if st.session_state.formatted_text: ...]: the formatted text and,
    when its button is clicked, the title and description. *)
Definition title_step (i : inputs) (formatted : option str) : S unit :=
  if truthy_opt formatted then
    show (UiTextArea (py "Formatted Subtitles:") formatted) ;;~
    (if generate_clicked i then
       video_description <~
         call (format_with_clarifai_api SUCCESS w selected_model
                 (match formatted with Some t => t | None => [] end)
                 video_prompt) ;;
       show (UiTextArea (py "Generated Title and Description:")
                        video_description)
     else sret tt)
  else sret tt.

(** The script from [url_or_id = st.text_input(...)] to its end; the
    static texts ([st.title], [st.markdown], [st.write]) are left out. *)
Definition run_script (i : inputs) : S outcome :=
  fetched <~ fetch_step i ;;
  let subtitles := fst fetched in
  let file := snd fetched in
  (* if 'formatted_text' not in st.session_state: ... = None *)
  let stored :=
    match stored_formatted_text i with
    | Some v => v
    | None => None
    end in
  if truthy_opt subtitles then
    let raw := match subtitles with Some t => t | None => [] end in
    formatted <~
      (if punctuate_clicked i then
         call (format_with_clarifai_api SUCCESS w selected_model raw
                                        format_prompt)
       else sret stored) ;;
    title_step i formatted ;;~
    sret (mkOutcome file formatted)
  else sret (mkOutcome file stored).

End WithServices.

(** The completion calls a run made. *)
Definition ui_calls (log : list ui_event) : list request :=
  flat_map (fun ev => match ev with
                      | UiClient (PostModelOutputs req _) => [req]
                      | _ => []
                      end) log.

End Script.

(** * Properties *)

(** ** Facts about Python strings *)

Module PyStrFacts.

Lemma chr_eqb_eq (a b : char) : chr_eqb a b = true <-> a = b.
Proof. unfold chr_eqb. apply N.eqb_eq. Qed.

Lemma chr_eqb_refl (a : char) : chr_eqb a a = true.
Proof. apply chr_eqb_eq. reflexivity. Qed.

Lemma str_eqb_eq (a b : str) : str_eqb a b = true <-> a = b.
Proof.
  revert b. induction a as [|x a IH]; intros [|y b]; simpl;
    try (split; [discriminate | discriminate]); try tauto.
  rewrite andb_true_iff, chr_eqb_eq, IH. split.
  - intros [-> ->]. reflexivity.
  - intros H. inversion H. auto.
Qed.

Lemma str_eqb_neq (a b : str) : str_eqb a b = false <-> a <> b.
Proof.
  rewrite <- str_eqb_eq. destruct (str_eqb a b); split; congruence.
Qed.

Lemma startswith_spec (p s : str) :
  startswith p s = true <-> exists b, s = p ++ b.
Proof.
  revert s. induction p as [|x p IH]; intros s; simpl.
  - split; [intros _; exists s; reflexivity | trivial].
  - destruct s as [|y s].
    + split; [discriminate | intros [b Hb]; discriminate].
    + rewrite andb_true_iff, chr_eqb_eq, IH. split.
      * intros [-> [b ->]]. exists b. reflexivity.
      * intros [b Hb]. inversion Hb. split; [reflexivity | exists b; reflexivity].
Qed.

(** [p in s] holds exactly when [s] is [a ++ p ++ b]. *)
Lemma contains_spec (p s : str) :
  contains p s = true <-> exists a b, s = a ++ p ++ b.
Proof.
  induction s as [|y s IH].
  - simpl. rewrite orb_false_r, startswith_spec. split.
    + intros [b Hb]. exists [], b. exact Hb.
    + intros [a [b Hb]]. destruct a; [|discriminate]. exists b. exact Hb.
  - cbn [contains]. rewrite orb_true_iff, startswith_spec, IH. split.
    + intros [[b Hb] | [a [b Hb]]].
      * exists [], b. exact Hb.
      * exists (y :: a), b. simpl. rewrite Hb. reflexivity.
    + intros [a [b Hb]]. destruct a as [|x a].
      * left. exists b. exact Hb.
      * right. inversion Hb. exists a, b. reflexivity.
Qed.

Lemma contains_char (c : char) (s : str) :
  contains [c] s = true <-> In c s.
Proof.
  rewrite contains_spec. split.
  - intros [a [b ->]]. apply in_or_app. right. left. reflexivity.
  - intros H. apply in_split in H. destruct H as [a [b ->]].
    exists a, b. reflexivity.
Qed.

Lemma contains_false_app (p a s b : str) :
  contains p (a ++ s ++ b) = false -> contains p s = false.
Proof.
  intros H. destruct (contains p s) eqn:E; [|reflexivity].
  apply contains_spec in E. destruct E as [a' [b' ->]].
  assert (contains p (a ++ (a' ++ p ++ b') ++ b) = true) as H'.
  { apply contains_spec. exists (a ++ a'), (b' ++ b).
    repeat rewrite <- app_assoc. reflexivity. }
  congruence.
Qed.

(** *** [dropwhile] and [takewhile] *)

Lemma take_drop (f : char -> bool) (s : str) :
  s = takewhile f s ++ dropwhile f s.
Proof.
  induction s as [|c s IH]; simpl; [reflexivity|].
  destruct (f c); simpl; [f_equal; exact IH | reflexivity].
Qed.

Lemma takewhile_all (f : char -> bool) (s : str) :
  Forall (fun c => f c = true) (takewhile f s).
Proof.
  induction s as [|c s IH]; simpl; [constructor|].
  destruct (f c) eqn:E; [constructor; assumption | constructor].
Qed.

Lemma dropwhile_head (f : char -> bool) (s : str) (c : char) (t : str) :
  dropwhile f s = c :: t -> f c = false.
Proof.
  induction s as [|x s IH]; simpl; [discriminate|].
  destruct (f x) eqn:E; [exact IH|]. intros H. inversion H. subst. exact E.
Qed.

Lemma dropwhile_all (f : char -> bool) (w s : str) :
  Forall (fun c => f c = true) w -> dropwhile f (w ++ s) = dropwhile f s.
Proof.
  induction 1 as [|c w Hc Hw IH]; simpl; [reflexivity|].
  rewrite Hc. exact IH.
Qed.

Lemma dropwhile_nil (f : char -> bool) (s : str) :
  dropwhile f s = [] -> Forall (fun c => f c = true) s.
Proof.
  induction s as [|c s IH]; simpl; [constructor|].
  destruct (f c) eqn:E; [|discriminate]. intros H. constructor; auto.
Qed.

Lemma dropwhile_app (f : char -> bool) (a b : str) :
  dropwhile f a <> [] -> dropwhile f (a ++ b) = dropwhile f a ++ b.
Proof.
  induction a as [|c a IH]; simpl; [congruence|].
  destruct (f c); [exact IH | reflexivity].
Qed.

Lemma dropwhile_fix (f : char -> bool) (s : str) :
  (forall c t, s = c :: t -> f c = false) -> dropwhile f s = s.
Proof.
  destruct s as [|c t]; simpl; [reflexivity|].
  intros H. rewrite (H c t eq_refl). reflexivity.
Qed.

(** *** [strip] *)

Lemma allws_app (a b : str) : allws a -> allws b -> allws (a ++ b).
Proof. intros Ha Hb. apply Forall_app. split; assumption. Qed.

Lemma allws_rev (a : str) : allws a -> allws (rev a).
Proof. intros Ha. apply Forall_rev. exact Ha. Qed.

Lemma strip_allws (w : str) : allws w -> strip w = [].
Proof.
  intros H. unfold strip, rstrip, lstrip.
  rewrite <- (app_nil_r w). rewrite dropwhile_all by exact H. reflexivity.
Qed.

Lemma strip_ws_l (w s : str) : allws w -> strip (w ++ s) = strip s.
Proof.
  intros H. unfold strip, lstrip. rewrite dropwhile_all by exact H.
  reflexivity.
Qed.

Lemma strip_ws_r (s w : str) : allws w -> strip (s ++ w) = strip s.
Proof.
  intros H. unfold strip, rstrip, lstrip.
  destruct (dropwhile isspace s) as [|c t] eqn:E.
  - apply dropwhile_nil in E.
    rewrite <- (app_nil_r (s ++ w)).
    rewrite dropwhile_all by (apply allws_app; assumption). reflexivity.
  - rewrite dropwhile_app by (rewrite E; discriminate).
    rewrite E, rev_app_distr.
    rewrite dropwhile_all by (apply allws_rev; exact H). reflexivity.
Qed.

(** [strip] removes a run of whitespace at each end. *)
Lemma strip_decompose (s : str) :
  exists w1 w2, allws w1 /\ allws w2 /\ s = w1 ++ strip s ++ w2.
Proof.
  exists (takewhile isspace s),
         (rev (takewhile isspace (rev (dropwhile isspace s)))).
  split; [apply takewhile_all|]. split.
  - apply allws_rev. apply takewhile_all.
  - unfold strip, rstrip, lstrip.
    rewrite <- rev_app_distr, <- take_drop, rev_involutive.
    apply take_drop.
Qed.

Lemma strip_ends (s : str) :
  (forall c t, strip s = c :: t -> isspace c = false) /\
  (forall c t, rev (strip s) = c :: t -> isspace c = false).
Proof.
  split; intros c t H.
  - unfold strip, rstrip, lstrip in H.
    pose proof (take_drop isspace (rev (dropwhile isspace s))) as D.
    apply (f_equal (@rev char)) in D.
    rewrite rev_involutive, rev_app_distr, H in D.
    simpl in D. eapply dropwhile_head. exact D.
  - unfold strip, rstrip in H. rewrite rev_involutive in H.
    eapply dropwhile_head. exact H.
Qed.

Lemma strip_fix (s : str) :
  (forall c t, s = c :: t -> isspace c = false) ->
  (forall c t, rev s = c :: t -> isspace c = false) ->
  strip s = s.
Proof.
  intros H1 H2. unfold strip, rstrip, lstrip.
  rewrite (dropwhile_fix _ H1), (dropwhile_fix _ H2).
  apply rev_involutive.
Qed.

Lemma strip_idem (s : str) : strip (strip s) = strip s.
Proof. apply strip_fix; apply strip_ends. Qed.

Lemma strip_In (c : char) (s : str) : In c (strip s) -> In c s.
Proof.
  intros H. destruct (strip_decompose s) as [w1 [w2 [_ [_ E]]]].
  rewrite E. apply in_or_app. right. apply in_or_app. left. exact H.
Qed.

Lemma strip_contains_false (p s : str) :
  contains p s = false -> contains p (strip s) = false.
Proof.
  intros H. destruct (strip_decompose s) as [w1 [w2 [_ [_ E]]]].
  rewrite E in H. eapply contains_false_app. exact H.
Qed.

(** A pattern that neither starts nor ends with whitespace survives
    [strip]. *)
Lemma lstrip_keeps (c : char) (p a b : str) :
  isspace c = false ->
  exists a', dropwhile isspace (a ++ (c :: p) ++ b) = a' ++ (c :: p) ++ b.
Proof.
  intros Hc. destruct (dropwhile isspace a) as [|x t] eqn:E.
  - apply dropwhile_nil in E. rewrite dropwhile_all by exact E.
    exists []. simpl. rewrite Hc. reflexivity.
  - rewrite dropwhile_app by (rewrite E; discriminate).
    exists (dropwhile isspace a). reflexivity.
Qed.

Lemma strip_contains_true (c d : char) (p q s : str) :
  isspace c = false -> isspace d = false -> rev (c :: p) = d :: q ->
  contains (c :: p) s = true -> contains (c :: p) (strip s) = true.
Proof.
  intros Hc Hd Hrev H. apply contains_spec in H. destruct H as [a [b ->]].
  apply contains_spec. unfold strip, rstrip, lstrip.
  destruct (@lstrip_keeps c p a b Hc) as [a' ->].
  repeat rewrite rev_app_distr. rewrite Hrev.
  rewrite <- app_assoc.
  destruct (@lstrip_keeps d q (rev b) (rev a') Hd) as [b' ->].
  repeat rewrite rev_app_distr. rewrite <- Hrev.
  repeat rewrite rev_involutive.
  exists a', (rev b'). rewrite <- app_assoc. reflexivity.
Qed.

(** *** [split] and [join] *)

Lemma split_nl_nonnil (s : str) : split_nl s <> [].
Proof.
  destruct s as [|c s]; simpl; [discriminate|].
  destruct (chr_eqb c nl); [discriminate|].
  destruct (split_nl s); discriminate.
Qed.

Lemma split_nl_cons (c : char) (s : str) :
  chr_eqb c nl = false ->
  split_nl (c :: s) = (c :: hd [] (split_nl s)) :: tl (split_nl s).
Proof.
  intros H. simpl. rewrite H.
  destruct (split_nl s) eqn:E; [|reflexivity].
  exfalso. exact (split_nl_nonnil _ E).
Qed.

Lemma split_nl_no_nl (s l : str) : In l (split_nl s) -> ~ In nl l.
Proof.
  revert l. induction s as [|c s IH]; intros l H.
  - simpl in H. destruct H as [<- | []]. intros [].
  - destruct (chr_eqb c nl) eqn:E.
    + simpl in H. rewrite E in H. destruct H as [<- | H]; [intros [] | auto].
    + rewrite split_nl_cons in H by exact E.
      pose proof (split_nl_nonnil s) as NN.
      destruct (split_nl s) as [|l0 ls]; [congruence|]. simpl in H.
      destruct H as [<- | H].
      * intros [Hc | Hin].
        -- subst c. rewrite chr_eqb_refl in E. discriminate.
        -- apply (IH l0); [left; reflexivity | exact Hin].
      * apply IH. right. exact H.
Qed.

(** The lines of [a ++ b]: the last line of [a] continues with the first
    line of [b]. *)
Lemma split_nl_app (a b : str) :
  split_nl (a ++ b)
  = removelast (split_nl a)
    ++ (last (split_nl a) [] ++ hd [] (split_nl b)) :: tl (split_nl b).
Proof.
  induction a as [|c a IH].
  - simpl. pose proof (split_nl_nonnil b).
    destruct (split_nl b); [congruence | reflexivity].
  - pose proof (split_nl_nonnil a) as NN.
    destruct (chr_eqb c nl) eqn:E.
    + cbn [split_nl app]. rewrite E, IH.
      destruct (split_nl a) as [|l ls]; [congruence | reflexivity].
    + rewrite split_nl_cons by exact E.
      change ((c :: a) ++ b) with (c :: (a ++ b)).
      rewrite split_nl_cons by exact E. rewrite IH.
      destruct (split_nl a) as [|l [|l2 ls]]; [congruence | reflexivity |].
      reflexivity.
Qed.

Lemma split_nl_line (l : str) : ~ In nl l -> split_nl l = [l].
Proof.
  induction l as [|c l IH]; intros H; [reflexivity|].
  assert (chr_eqb c nl = false) as E.
  { destruct (chr_eqb c nl) eqn:E; [|reflexivity].
    apply chr_eqb_eq in E. exfalso. apply H. left. exact E. }
  rewrite split_nl_cons by exact E.
  rewrite IH by (intros Hin; apply H; right; exact Hin). reflexivity.
Qed.

Lemma split_nl_line_nl (l s : str) :
  ~ In nl l -> split_nl (l ++ nl :: s) = l :: split_nl s.
Proof.
  intros H. rewrite split_nl_app, split_nl_line by exact H.
  change (split_nl (nl :: s)) with ([] :: split_nl s).
  cbn [removelast last hd tl app]. rewrite app_nil_r. reflexivity.
Qed.

(** Splitting what [join] made of newline-free lines gives the lines. *)
Lemma split_join (ls : list str) :
  ls <> [] -> (forall l, In l ls -> ~ In nl l) ->
  split_nl (join_nl ls) = ls.
Proof.
  induction ls as [|l ls IH]; intros NN H; [congruence|].
  destruct ls as [|l2 ls].
  - simpl. apply split_nl_line. apply H. left. reflexivity.
  - change (join_nl (l :: l2 :: ls)) with (l ++ nl :: join_nl (l2 :: ls)).
    rewrite split_nl_line_nl by (apply H; left; reflexivity).
    rewrite IH; [reflexivity | discriminate |].
    intros l' Hl'. apply H. right. exact Hl'.
Qed.

Lemma split_nl_allws (w l : str) : allws w -> In l (split_nl w) -> allws l.
Proof.
  intros Hw. revert l. induction Hw as [|c w Hc Hw IH]; intros l H.
  - simpl in H. destruct H as [<- | []]. constructor.
  - destruct (chr_eqb c nl) eqn:E.
    + simpl in H. rewrite E in H. destruct H as [<- | H]; [constructor | auto].
    + rewrite split_nl_cons in H by exact E.
      pose proof (split_nl_nonnil w) as NN.
      destruct (split_nl w) as [|l0 ls]; [congruence|]. simpl in H.
      destruct H as [<- | H].
      * constructor; [exact Hc | apply IH; left; reflexivity].
      * apply IH. right. exact H.
Qed.

End PyStrFacts.
Import PyStrFacts.

(** ** Facts about the loop of [filter_subtitles] *)

Module FilterFacts.

Lemma step_strip (st : state) (raw : str) : step st (strip raw) = step st raw.
Proof. unfold step. rewrite strip_idem. reflexivity. Qed.

Lemma step_blank (st : state) (raw : str) : strip raw = [] -> step st raw = st.
Proof.
  intros H. unfold step. rewrite H. simpl.
  rewrite andb_false_r. destruct (negb (past_header st)); reflexivity.
Qed.

(** What one iteration does to [content_lines]: nothing, or it appends the
    stripped line, which then is a candidate met with the flag set. *)
Lemma step_content (st : state) (raw : str) :
  content_lines (step st raw) = content_lines st \/
  (content_lines (step st raw) = content_lines st ++ [strip raw] /\
   is_marker raw = false /\ capture_next st = true /\
   eligible (strip raw) = true /\
   should_append (content_lines st) (strip raw) = true).
Proof.
  unfold step, is_marker. destruct (contains arrow (strip raw)); [left; reflexivity|].
  destruct (negb (past_header st)); [left; reflexivity|].
  destruct (capture_next st); [|left; reflexivity].
  destruct (eligible (strip raw)); [|left; reflexivity].
  cbn [andb content_lines].
  destruct (should_append (content_lines st) (strip raw)); [|left; reflexivity].
  right. repeat split; reflexivity.
Qed.

Lemma run_app (st : state) (a b : list str) :
  run st (a ++ b) = run (run st a) b.
Proof. unfold run. apply fold_left_app. Qed.

Lemma run_cons (st : state) (l : str) (ls : list str) :
  run st (l :: ls) = run (step st l) ls.
Proof. reflexivity. Qed.

(** *** The loop sees only the stripped, non-blank lines *)

Lemma seen_lines_app (a b : list str) :
  seen_lines (a ++ b) = seen_lines a ++ seen_lines b.
Proof. unfold seen_lines. rewrite map_app, filter_app. reflexivity. Qed.

Lemma seen_lines_allws (ls : list str) : Forall allws ls -> seen_lines ls = [].
Proof.
  induction 1 as [|l ls Hl Hls IH]; [reflexivity|].
  unfold seen_lines in *. simpl. rewrite (strip_allws Hl). exact IH.
Qed.

Lemma seen_lines_cons_eq (a b : str) (ls : list str) :
  strip a = strip b -> seen_lines (a :: ls) = seen_lines (b :: ls).
Proof. intros H. unfold seen_lines. simpl. rewrite H. reflexivity. Qed.

Lemma run_seen (ls : list str) (st : state) : run st ls = run st (seen_lines ls).
Proof.
  revert st. induction ls as [|l ls IH]; intros st; [reflexivity|].
  rewrite run_cons. unfold seen_lines in *. cbn [map filter].
  destruct (strip l) as [|c t] eqn:E.
  - rewrite (step_blank st l E). apply IH.
  - cbn [truthy]. rewrite run_cons, <- E, step_strip. apply IH.
Qed.

Lemma split_last (s : str) :
  split_nl s = removelast (split_nl s) ++ [last (split_nl s) []].
Proof. apply app_removelast_last. apply split_nl_nonnil. Qed.

Lemma split_hd (s : str) :
  split_nl s = hd [] (split_nl s) :: tl (split_nl s).
Proof.
  pose proof (split_nl_nonnil s). destruct (split_nl s); [congruence | reflexivity].
Qed.

Lemma split_allws_lines (w : str) : allws w -> Forall allws (split_nl w).
Proof. intros H. apply Forall_forall. intros l. apply split_nl_allws. exact H. Qed.

Lemma seen_ws_l (w y : str) :
  allws w -> seen_lines (split_nl (w ++ y)) = seen_lines (split_nl y).
Proof.
  intros Hw. pose proof (split_allws_lines Hw) as HW.
  rewrite split_last in HW. apply Forall_app in HW. destruct HW as [H1 H2].
  inversion H2 as [|? ? Hlast _]; subst.
  rewrite split_nl_app, seen_lines_app, (seen_lines_allws H1).
  rewrite (split_hd y) at 3. apply seen_lines_cons_eq.
  apply strip_ws_l. exact Hlast.
Qed.

Lemma seen_ws_r (y w : str) :
  allws w -> seen_lines (split_nl (y ++ w)) = seen_lines (split_nl y).
Proof.
  intros Hw. pose proof (split_allws_lines Hw) as HW.
  rewrite split_hd in HW. inversion HW as [|? ? Hhd Htl]; subst.
  rewrite split_nl_app, seen_lines_app.
  rewrite (split_last y) at 3. rewrite seen_lines_app. f_equal.
  change (?a :: tl (split_nl w)) with ([a] ++ tl (split_nl w)).
  rewrite seen_lines_app, (seen_lines_allws Htl), app_nil_r.
  apply seen_lines_cons_eq. apply strip_ws_r. exact Hhd.
Qed.

(** Stripping the whole text first does not change what the loop sees. *)
Lemma seen_lines_of (s : str) :
  seen_lines (lines_of s) = seen_lines (split_nl s).
Proof.
  unfold lines_of. destruct (strip_decompose s) as [w1 [w2 [H1 [H2 E]]]].
  rewrite E at 2. rewrite (seen_ws_l _ H1), (seen_ws_r _ H2). reflexivity.
Qed.

(** The captured lines, from the lines of the text as given. *)
Lemma captured_raw (s : str) :
  captured s = content_lines (run init (split_nl s)).
Proof.
  unfold captured. rewrite run_seen, seen_lines_of, <- run_seen. reflexivity.
Qed.

(** *** Lines without a marker *)

Lemma step_nonmarker (st : state) (raw : str) :
  is_marker raw = false ->
  step st raw =
  if negb (past_header st) then st
  else if capture_next st && eligible (strip raw) then
    mkState (past_header st)
            (if should_append (content_lines st) (strip raw)
             then content_lines st ++ [strip raw]
             else content_lines st)
            false
  else st.
Proof. unfold is_marker, step. intros ->. reflexivity. Qed.

Lemma step_marker (st : state) (raw : str) :
  is_marker raw = true -> step st raw = mkState true (content_lines st) true.
Proof. unfold is_marker, step. intros ->. reflexivity. Qed.

(** Before the first marker, and after a capture, lines change nothing. *)
Lemma run_idle (body : list str) (st : state) :
  (forall l, In l body -> is_marker l = false) ->
  past_header st = false \/ capture_next st = false ->
  run st body = st.
Proof.
  induction body as [|l body IH]; intros Hm Hst; [reflexivity|].
  rewrite run_cons.
  assert (step st l = st) as ->.
  { rewrite step_nonmarker by (apply Hm; left; reflexivity).
    destruct Hst as [-> | ->]; [reflexivity|].
    destruct (negb (past_header st)); reflexivity. }
  apply IH; [|exact Hst]. intros x Hx. apply Hm. right. exact Hx.
Qed.

(** Lines that are neither markers nor candidates change nothing. *)
Lemma run_no_candidate (body : list str) (st : state) :
  (forall l, In l body -> is_marker l = false) ->
  (forall l, In l body -> is_candidate l = false) ->
  run st body = st.
Proof.
  induction body as [|l body IH]; intros Hm Hc; [reflexivity|].
  rewrite run_cons.
  assert (step st l = st) as ->.
  { rewrite step_nonmarker by (apply Hm; left; reflexivity).
    pose proof (Hc l (or_introl eq_refl)) as E. unfold is_candidate in E.
    rewrite E, andb_false_r. destruct (negb (past_header st)); reflexivity. }
  apply IH; intros x Hx; [apply Hm | apply Hc]; right; exact Hx.
Qed.

(** *** What the captured lines are *)

Lemma last_line_snoc (cl : list str) (x : str) : last_line (cl ++ [x]) = Some x.
Proof. unfold last_line. rewrite rev_app_distr. reflexivity. Qed.

Lemma should_append_snoc (cl : list str) (x y : str) :
  should_append (cl ++ [x]) y = negb (str_eqb x y).
Proof. unfold should_append. rewrite last_line_snoc. reflexivity. Qed.

Lemma should_append_same (cl : list str) (x : str) :
  should_append (cl ++ [x]) x = false.
Proof.
  rewrite should_append_snoc.
  assert (str_eqb x x = true) as -> by (apply str_eqb_eq; reflexivity).
  reflexivity.
Qed.

Lemma no_adjacent_dup_nil : no_adjacent_dup [].
Proof. intros pre a b post H. destruct pre; discriminate. Qed.

Lemma no_adjacent_dup_snoc (cl : list str) (x : str) :
  no_adjacent_dup cl -> should_append cl x = true ->
  no_adjacent_dup (cl ++ [x]).
Proof.
  intros Hcl Hx pre a b post E.
  destruct (rev post) as [|z tsop] eqn:Ep.
  - apply (f_equal (@rev str)) in Ep. rewrite rev_involutive in Ep.
    simpl in Ep. subst post.
    change (pre ++ [a; b]) with (pre ++ [a] ++ [b]) in E.
    rewrite app_assoc in E. apply app_inj_tail in E. destruct E as [-> ->].
    rewrite should_append_snoc in Hx. apply negb_true_iff in Hx.
    apply str_eqb_neq. exact Hx.
  - apply (f_equal (@rev str)) in Ep. rewrite rev_involutive in Ep.
    simpl in Ep. subst post.
    change (pre ++ a :: b :: rev tsop ++ [z])
      with (pre ++ (a :: b :: rev tsop) ++ [z]) in E.
    rewrite app_assoc in E. apply app_inj_tail in E. destruct E as [E _].
    exact (Hcl pre a b (rev tsop) E).
Qed.

Lemma no_adjacent_dup_boundary (acc : list str) (x : str) (t : list str) :
  no_adjacent_dup (acc ++ x :: t) -> should_append acc x = true.
Proof.
  intros H. destruct (rev acc) as [|y cca] eqn:E.
  - unfold should_append, last_line. rewrite E. reflexivity.
  - apply (f_equal (@rev str)) in E. rewrite rev_involutive in E.
    simpl in E. subst acc. rewrite should_append_snoc.
    apply negb_true_iff, str_eqb_neq.
    apply (H (rev cca) y x t). rewrite <- app_assoc. reflexivity.
Qed.

Lemma step_no_adjacent_dup (st : state) (raw : str) :
  no_adjacent_dup (content_lines st) ->
  no_adjacent_dup (content_lines (step st raw)).
Proof.
  intros H. destruct (step_content st raw) as [-> | [-> [_ [_ [_ Ha]]]]];
    [exact H | apply no_adjacent_dup_snoc; assumption].
Qed.

Lemma run_no_adjacent_dup (ls : list str) (st : state) :
  no_adjacent_dup (content_lines st) ->
  no_adjacent_dup (content_lines (run st ls)).
Proof.
  revert st. induction ls as [|l ls IH]; intros st H; [exact H|].
  rewrite run_cons. apply IH. apply step_no_adjacent_dup. exact H.
Qed.

Lemma step_clean (st : state) (raw : str) :
  ~ In nl raw -> Forall clean_line (content_lines st) ->
  Forall clean_line (content_lines (step st raw)).
Proof.
  intros Hnl H. destruct (step_content st raw) as [-> | [-> [_ [_ [He _]]]]];
    [exact H|].
  apply Forall_app. split; [exact H|]. constructor; [|constructor].
  split; [apply strip_idem|]. split; [exact He|].
  intros Hin. apply Hnl. apply strip_In. exact Hin.
Qed.

Lemma run_clean (ls : list str) (st : state) :
  (forall l, In l ls -> ~ In nl l) -> Forall clean_line (content_lines st) ->
  Forall clean_line (content_lines (run st ls)).
Proof.
  revert st. induction ls as [|l ls IH]; intros st Hnl H; [exact H|].
  rewrite run_cons. apply IH.
  - intros x Hx. apply Hnl. right. exact Hx.
  - apply step_clean; [apply Hnl; left; reflexivity | exact H].
Qed.

Lemma captured_clean (s : str) : Forall clean_line (captured s).
Proof.
  unfold captured. apply run_clean; [|constructor].
  intros l Hl. unfold lines_of in Hl. eapply split_nl_no_nl. exact Hl.
Qed.

Lemma captured_no_adjacent_dup (s : str) : no_adjacent_dup (captured s).
Proof. unfold captured. apply run_no_adjacent_dup, no_adjacent_dup_nil. Qed.

(** The captured lines grow at the end only. *)
Lemma run_extends (ls : list str) (st : state) :
  exists rest, content_lines (run st ls) = content_lines st ++ rest.
Proof.
  revert st. induction ls as [|l ls IH]; intros st.
  - exists []. rewrite app_nil_r. reflexivity.
  - rewrite run_cons. destruct (IH (step st l)) as [rest ->].
    destruct (step_content st l) as [-> | [-> _]].
    + exists rest. reflexivity.
    + exists (strip l :: rest). rewrite <- app_assoc. reflexivity.
Qed.

(** The lines of the returned text are the captured lines; the empty text
    has one empty line. *)
Lemma output_lines_captured (s : str) :
  captured s <> [] -> output_lines s = captured s.
Proof.
  intros H. unfold output_lines, filter_subtitles. apply split_join; [exact H|].
  intros l Hl. pose proof (captured_clean s) as C.
  rewrite Forall_forall in C. destruct (C l Hl) as [_ [_ Hnl]]. exact Hnl.
Qed.

Lemma output_lines_empty (s : str) :
  captured s = [] -> output_lines s = [[]].
Proof. intros H. unfold output_lines, filter_subtitles. rewrite H. reflexivity. Qed.

End FilterFacts.
Import FilterFacts.

(** ** Cue blocks *)

Module CueFacts.

(** After a marker, the first candidate of a marker-free body is the one
    line considered: it is appended unless it repeats the last captured
    line, and the flag is cleared. *)
Lemma body_capture (L : str) (body : list str) (st : state) :
  (forall l, In l body -> is_marker l = false) ->
  past_header st = true -> capture_next st = true ->
  first_candidate body = Some L ->
  run st body =
  mkState true
          (if should_append (content_lines st) L
           then content_lines st ++ [L] else content_lines st)
          false.
Proof.
  revert st. induction body as [|l body IH]; intros st Hm Hp Hc Hf;
    [discriminate|].
  unfold first_candidate in Hf. cbn [map find] in Hf.
  rewrite run_cons, step_nonmarker by (apply Hm; left; reflexivity).
  rewrite Hp, Hc. cbn [negb andb].
  destruct (eligible (strip l)) eqn:E.
  - inversion Hf as [HL]. rewrite HL. apply run_idle.
    + intros x Hx. apply Hm. right. exact Hx.
    + right. reflexivity.
  - apply IH; try assumption. intros x Hx. apply Hm. right. exact Hx.
Qed.

Lemma cue_run (L : str) (c : cue) (st : state) :
  well_formed_cue c -> first_candidate (snd c) = Some L ->
  run st (cue_lines c) =
  mkState true
          (if should_append (content_lines st) L
           then content_lines st ++ [L] else content_lines st)
          false.
Proof.
  intros [Hm Hb] Hf. unfold cue_lines.
  rewrite run_cons, (step_marker st _ Hm).
  rewrite (@body_capture L (snd c)); try assumption; reflexivity.
Qed.

(** Consecutive cues with the same first candidate append it once. *)
Lemma cues_run (L : str) (cues : list cue) (st : state) :
  cues <> [] ->
  (forall c, In c cues -> well_formed_cue c /\ first_candidate (snd c) = Some L) ->
  content_lines (run st (flat_map cue_lines cues)) =
  if should_append (content_lines st) L
  then content_lines st ++ [L] else content_lines st.
Proof.
  revert st. induction cues as [|c cues IH]; intros st NN H; [congruence|].
  destruct (H c (or_introl eq_refl)) as [Hw Hf].
  cbn [flat_map]. rewrite run_app, (cue_run st Hw Hf).
  destruct cues as [|c2 cues]; [reflexivity|].
  rewrite IH; [|discriminate | intros x Hx; apply H; right; exact Hx].
  cbn [content_lines].
  destruct (should_append (content_lines st) L) eqn:E.
  - rewrite should_append_same. reflexivity.
  - rewrite E. reflexivity.
Qed.

(** Between two markers at most one line is appended. *)
Lemma body_at_most_one (body : list str) (st : state) :
  (forall l, In l body -> is_marker l = false) ->
  exists added,
    length added <= 1 /\
    content_lines (run st body) = content_lines st ++ added.
Proof.
  revert st. induction body as [|l body IH]; intros st Hm.
  - exists []. split; [simpl; lia | rewrite app_nil_r; reflexivity].
  - assert (forall x, In x body -> is_marker x = false) as Hm'
      by (intros x Hx; apply Hm; right; exact Hx).
    rewrite run_cons, step_nonmarker by (apply Hm; left; reflexivity).
    destruct (negb (past_header st)); [apply IH; exact Hm'|].
    destruct (capture_next st && eligible (strip l)); [|apply IH; exact Hm'].
    rewrite run_idle; [|exact Hm' | right; reflexivity].
    cbn [content_lines].
    destruct (should_append (content_lines st) (strip l)).
    + exists [strip l]. split; [simpl; lia | reflexivity].
    + exists []. split; [simpl; lia | rewrite app_nil_r; reflexivity].
Qed.

Lemma arrow_has_gt (l : str) :
  contains arrow l = true -> contains gt_tag l = true.
Proof.
  rewrite 2 contains_spec. intros [a [b ->]].
  exists (a ++ py "--"), b. rewrite <- app_assoc. reflexivity.
Qed.

Lemma clean_not_marker (l : str) : clean_line l -> is_marker l = false.
Proof.
  intros [Hs [He _]]. unfold is_marker. rewrite Hs.
  destruct (contains arrow l) eqn:E; [|reflexivity].
  apply arrow_has_gt in E. unfold eligible in He. rewrite E in He.
  rewrite andb_false_r in He. discriminate.
Qed.

Lemma marker_strip (m : str) : contains arrow m = true -> is_marker m = true.
Proof.
  unfold is_marker, arrow. intros H.
  change (py "-->") with (45%N :: py "->") in *.
  apply (@strip_contains_true 45%N 62%N (py "->") (py "--"));
    [reflexivity | reflexivity | reflexivity | exact H].
Qed.

(** A marker before each clean line recaptures the lines. *)
Lemma wrapped_run (m : str) (cl : list str) (st : state) :
  is_marker m = true -> Forall clean_line cl ->
  no_adjacent_dup (content_lines st ++ cl) ->
  content_lines (run st (flat_map (fun l => [m; l]) cl)) = content_lines st ++ cl.
Proof.
  intros Hm. revert st. induction cl as [|x cl IH]; intros st Hc Hd.
  - simpl. rewrite app_nil_r. reflexivity.
  - inversion Hc as [|? ? Hx Hcl]; subst.
    cbn [flat_map app]. rewrite 2 run_cons. rewrite (step_marker st _ Hm).
    rewrite step_nonmarker by (apply clean_not_marker; exact Hx).
    destruct Hx as [Hs [He Hnl]]. rewrite Hs, He. cbn [past_header negb
      capture_next andb content_lines].
    rewrite (no_adjacent_dup_boundary _ _ _ Hd).
    rewrite IH; cbn [content_lines].
    + rewrite <- app_assoc. reflexivity.
    + exact Hcl.
    + rewrite <- app_assoc. exact Hd.
Qed.

End CueFacts.
Import CueFacts.

(** * The claims about the caption filter *)

Module FilterClaims.

(** C1. On the scenario document (three cues: "hello world", "hello world"
    again, then a tagged line followed by "goodbye now"), the filter returns
    exactly the two lines "hello world" and "goodbye now" joined by a
    newline. *)
Theorem scenario_transcript :
  filter_subtitles
    (join_nl [py "00:00:00.000 --> 00:00:02.000"; py "hello world";
              py "00:00:02.000 --> 00:00:04.000"; py "hello world";
              py "00:00:04.000 --> 00:00:06.000"; py "<c>goodbye</c>";
              py "goodbye now"])
  = py "hello world" ++ nl :: py "goodbye now".
Proof. vm_compute. reflexivity. Qed.

(** C2. No line of the output equals the line before it; and when the first
    candidate line after each of several consecutive timing markers is the
    same line [L], the loop appends [L] once over those cues (not at all if
    [L] was the line captured just before them), so that a document made of
    such cues yields [L] exactly once. *)
Theorem adjacent_duplicates_suppressed (s : str) :
  no_adjacent_dup (captured s) /\
  no_adjacent_dup (output_lines s) /\
  (forall header cues L,
     split_nl s = header ++ flat_map cue_lines cues ->
     cues <> [] ->
     (forall l, In l header -> is_marker l = false) ->
     (forall c, In c cues ->
                well_formed_cue c /\ first_candidate (snd c) = Some L) ->
     captured s = [L] /\ output_lines s = [L] /\ filter_subtitles s = L) /\
  (forall pre cues post L,
     split_nl s = pre ++ flat_map cue_lines cues ++ post ->
     cues <> [] ->
     (forall c, In c cues ->
                well_formed_cue c /\ first_candidate (snd c) = Some L) ->
     let before := content_lines (run init pre) in
     content_lines (run init (pre ++ flat_map cue_lines cues)) =
     if should_append before L then before ++ [L] else before).
Proof.
  split; [apply captured_no_adjacent_dup|]. split.
  - destruct (captured s) as [|l ls] eqn:E.
    + rewrite (output_lines_empty s E). intros pre a b post H.
      destruct pre as [|? [|? ?]]; discriminate.
    + rewrite output_lines_captured by (rewrite E; discriminate).
      apply captured_no_adjacent_dup.
  - split.
    + intros header cues L Hs NN Hh Hc.
      assert (captured s = [L]) as E.
      { rewrite captured_raw, Hs, run_app.
        rewrite (run_idle header init Hh (or_introl eq_refl)).
        rewrite (cues_run init NN Hc). reflexivity. }
      split; [exact E|]. split.
      * rewrite output_lines_captured by (rewrite E; discriminate). exact E.
      * unfold filter_subtitles. rewrite E. reflexivity.
    + intros pre cues post L _ NN Hc before.
      rewrite run_app. apply (cues_run _ NN Hc).
Qed.

(** C3. A text in which no line contains ["-->"] gives the empty
    transcript, whatever the lines are. *)
Theorem no_marker_empty_transcript (s : str) :
  (forall l, In l (split_nl s) -> contains arrow l = false) ->
  captured s = [] /\ filter_subtitles s = [].
Proof.
  intros H.
  assert (captured s = []) as E.
  { rewrite captured_raw, run_idle; [reflexivity | | left; reflexivity].
    intros l Hl. unfold is_marker. apply strip_contains_false, H, Hl. }
  split; [exact E|]. unfold filter_subtitles. rewrite E. reflexivity.
Qed.

(** C4. A line that contains ['<'] or ['>'] is never among the captured
    lines nor among the lines of the output, for any input document. *)
Theorem tagged_line_never_emitted (s l : str) :
  contains lt_tag l = true \/ contains gt_tag l = true ->
  ~ In l (captured s) /\ ~ In l (output_lines s).
Proof.
  intros H.
  assert (~ In l (captured s)) as N.
  { intros Hin. pose proof (captured_clean s) as C.
    rewrite Forall_forall in C. destruct (C l Hin) as [_ [He _]].
    unfold eligible in He. apply andb_true_iff in He. destruct He as [He Hg].
    apply andb_true_iff in He. destruct He as [_ Hl].
    destruct H as [H | H]; rewrite H in *; discriminate. }
  split; [exact N|].
  destruct (captured s) as [|x xs] eqn:E.
  - rewrite (output_lines_empty s E). intros [<- | []].
    destruct H as [H | H]; discriminate.
  - rewrite output_lines_captured by (rewrite E; discriminate).
    rewrite E. exact N.
Qed.

(** C5. Between a timing marker and the next one (or the end of the input)
    the loop appends at most one line, and that line stays where it is in
    the final output; the first candidate line after the marker clears the
    capture flag whether or not it is appended, and no later line of the
    cue changes the captured lines. *)
Theorem at_most_one_line_per_marker
    (s : str) (pre : list str) (m : str) (body post : list str) :
  split_nl s = pre ++ m :: body ++ post ->
  is_marker m = true ->
  (forall l, In l body -> is_marker l = false) ->
  let before := content_lines (run init pre) in
  (exists added rest,
     length added <= 1 /\
     content_lines (run init (pre ++ m :: body)) = before ++ added /\
     captured s = before ++ added ++ rest) /\
  (forall b1 l b2,
     body = b1 ++ l :: b2 ->
     (forall x, In x b1 -> is_candidate x = false) ->
     is_candidate l = true ->
     capture_next (run init (pre ++ m :: b1 ++ [l])) = false /\
     content_lines (run init (pre ++ m :: b1 ++ [l])) =
       (if should_append before (strip l)
        then before ++ [strip l] else before) /\
     content_lines (run init (pre ++ m :: body)) =
       content_lines (run init (pre ++ m :: b1 ++ [l]))).
Proof.
  intros Hs Hm Hb before. split.
  - destruct (body_at_most_one body (step (run init pre) m) Hb)
      as [added [Hlen Hadd]].
    rewrite (step_marker _ _ Hm) in Hadd at 2. cbn [content_lines] in Hadd.
    assert (content_lines (run init (pre ++ m :: body)) = before ++ added) as E.
    { rewrite run_app, run_cons. exact Hadd. }
    destruct (run_extends post (run init (pre ++ m :: body))) as [rest Hrest].
    exists added, rest. split; [exact Hlen|]. split; [exact E|].
    rewrite captured_raw, Hs.
    change (pre ++ m :: body ++ post) with (pre ++ (m :: body) ++ post).
    rewrite app_assoc, run_app, Hrest, E, <- app_assoc. reflexivity.
  - intros b1 l b2 -> Hb1 Hl.
    assert (run init (pre ++ m :: b1 ++ [l]) =
            mkState true
                    (if should_append before (strip l)
                     then before ++ [strip l] else before)
                    false) as E.
    { rewrite run_app, run_cons, (step_marker _ _ Hm), run_app.
      rewrite (@run_no_candidate b1);
        [| intros x Hx; apply Hb, in_or_app; left; exact Hx | exact Hb1].
      cbn [run fold_left].
      rewrite step_nonmarker
        by (apply Hb, in_or_app; right; left; reflexivity).
      unfold is_candidate in Hl. rewrite Hl. reflexivity. }
    split; [rewrite E; reflexivity|]. split; [rewrite E; reflexivity|].
    change (pre ++ m :: b1 ++ l :: b2) with (pre ++ m :: b1 ++ [l] ++ b2).
    replace (pre ++ m :: b1 ++ [l] ++ b2)
      with ((pre ++ m :: b1 ++ [l]) ++ b2)
      by (rewrite <- app_assoc; simpl; rewrite <- app_assoc; reflexivity).
    rewrite run_app, run_idle; [reflexivity | | right; rewrite E; reflexivity].
    intros x Hx. apply Hb, in_or_app. right. right. exact Hx.
Qed.

(** C6. Splitting the output into its lines, putting a line that contains
    ["-->"] before each of them and filtering the resulting document gives
    the same lines, and the same text, as the output. *)
Theorem filter_idempotent_on_wrapped_output (s m : str) :
  contains arrow m = true -> ~ In nl m ->
  output_lines (wrap m (output_lines s)) = output_lines s /\
  filter_subtitles (wrap m (output_lines s)) = filter_subtitles s.
Proof.
  intros Hm Hnl.
  assert (captured (wrap m (output_lines s)) = captured s) as E.
  { rewrite captured_raw. unfold wrap. rewrite split_join.
    - destruct (captured s) as [|x xs] eqn:C.
      + rewrite (output_lines_empty s C). cbn [flat_map app run fold_left].
        rewrite (step_marker _ _ (marker_strip _ Hm)).
        rewrite step_blank by reflexivity. reflexivity.
      + rewrite output_lines_captured by (rewrite C; discriminate).
        rewrite (wrapped_run m init (marker_strip _ Hm)).
        * rewrite C. reflexivity.
        * apply captured_clean.
        * apply captured_no_adjacent_dup.
    - pose proof (split_nl_nonnil (filter_subtitles s)) as NN.
      unfold output_lines. destruct (split_nl (filter_subtitles s));
        [congruence | discriminate].
    - intros l Hl. apply in_flat_map in Hl. destruct Hl as [x [Hx Hl]].
      destruct Hl as [<- | [<- | []]]; [exact Hnl|].
      unfold output_lines in Hx. eapply split_nl_no_nl. exact Hx. }
  unfold output_lines at 1 3. unfold filter_subtitles at 1 3 4.
  rewrite E. split; reflexivity.
Qed.

(** *** The theorems at concrete documents *)

Lemma adjacent_duplicates_suppressed_witness :
  captured doc_two_cues = [py "hello world"] /\
  output_lines doc_two_cues = [py "hello world"] /\
  filter_subtitles doc_two_cues = py "hello world".
Proof.
  destruct (adjacent_duplicates_suppressed doc_two_cues) as [_ [_ [H _]]].
  apply (H [py "WEBVTT"]
           [(py "00:00:00.000 --> 00:00:02.000", [py "hello world"]);
            (py "00:00:02.000 --> 00:00:04.000",
             [py "<c>hello</c>"; py "hello world"; py "and more"])]
           (py "hello world")).
  - vm_compute. reflexivity.
  - discriminate.
  - intros l [<- | []]. vm_compute. reflexivity.
  - intros c [<- | [<- | []]]; (split; [split|]).
    + vm_compute. reflexivity.
    + intros l [<- | []]. vm_compute. reflexivity.
    + vm_compute. reflexivity.
    + vm_compute. reflexivity.
    + intros l [<- | [<- | [<- | []]]]; vm_compute; reflexivity.
    + vm_compute. reflexivity.
Defined.

Lemma no_marker_empty_transcript_witness :
  captured (py "hello <b>world</b>" ++ nl :: py "-- > again") = [] /\
  filter_subtitles (py "hello <b>world</b>" ++ nl :: py "-- > again") = [].
Proof.
  apply no_marker_empty_transcript.
  intros l [<- | [<- | []]]; vm_compute; reflexivity.
Defined.

Lemma tagged_line_never_emitted_witness :
  ~ In (py "<c>goodbye</c>")
       (captured (py "0 --> 1" ++ nl :: py "<c>goodbye</c>")) /\
  ~ In (py "<c>goodbye</c>")
       (output_lines (py "0 --> 1" ++ nl :: py "<c>goodbye</c>")).
Proof.
  apply tagged_line_never_emitted. left. vm_compute. reflexivity.
Defined.

Lemma at_most_one_line_per_marker_witness :
  let before := content_lines (run init [py "WEBVTT"]) in
  (exists added rest,
     length added <= 1 /\
     content_lines
       (run init ([py "WEBVTT"] ++ py "0 --> 1" :: [py "one"; py "two"]))
     = before ++ added /\
     captured (join_nl [py "WEBVTT"; py "0 --> 1"; py "one"; py "two";
                        py "1 --> 2"; py "three"])
     = before ++ added ++ rest) /\
  (forall b1 l b2,
     [py "one"; py "two"] = b1 ++ l :: b2 ->
     (forall x, In x b1 -> is_candidate x = false) ->
     is_candidate l = true ->
     capture_next (run init ([py "WEBVTT"] ++ py "0 --> 1" :: b1 ++ [l]))
     = false /\
     content_lines (run init ([py "WEBVTT"] ++ py "0 --> 1" :: b1 ++ [l])) =
       (if should_append before (strip l)
        then before ++ [strip l] else before) /\
     content_lines
       (run init ([py "WEBVTT"] ++ py "0 --> 1" :: [py "one"; py "two"])) =
       content_lines (run init ([py "WEBVTT"] ++ py "0 --> 1" :: b1 ++ [l]))).
Proof.
  apply (@at_most_one_line_per_marker
           (join_nl [py "WEBVTT"; py "0 --> 1"; py "one"; py "two";
                     py "1 --> 2"; py "three"])
           [py "WEBVTT"] (py "0 --> 1") [py "one"; py "two"]
           [py "1 --> 2"; py "three"]).
  - vm_compute. reflexivity.
  - vm_compute. reflexivity.
  - intros l [<- | [<- | []]]; vm_compute; reflexivity.
Defined.

Lemma filter_idempotent_on_wrapped_output_witness :
  output_lines (wrap (py "-->") (output_lines doc_two_cues))
  = output_lines doc_two_cues /\
  filter_subtitles (wrap (py "-->") (output_lines doc_two_cues))
  = filter_subtitles doc_two_cues.
Proof.
  apply filter_idempotent_on_wrapped_output.
  - vm_compute. reflexivity.
  - vm_compute. intros [H | [H | [H | []]]]; discriminate.
Defined.

End FilterClaims.

(** * The identifier extractor *)

Module ExtractFacts.

Import Extract.

Lemma takewhile_forallb (f : char -> bool) (s : str) :
  forallb f (takewhile f s) = true.
Proof.
  induction s as [|c s IH]; simpl; [reflexivity|].
  destruct (f c) eqn:E; [simpl; rewrite E; exact IH | reflexivity].
Qed.

Lemma takewhile_hd (f : char -> bool) (s : str) (c : char) (r : str) :
  takewhile f s = c :: r -> exists t, s = c :: t /\ f c = true.
Proof.
  destruct s as [|x s]; simpl; [discriminate|].
  destruct (f x) eqn:E; [|discriminate].
  intros H. inversion H. subst. exists s. split; [reflexivity | exact E].
Qed.

(** The greedy run stops at the first character outside the class. *)
Lemma takewhile_stop (f : char -> bool) (r rest : str) :
  forallb f r = true ->
  (forall c t, rest = c :: t -> f c = false) ->
  takewhile f (r ++ rest) = r.
Proof.
  intros Hr Hrest. induction r as [|x r IH].
  - simpl. destruct rest as [|c t]; [reflexivity|].
    simpl. rewrite (Hrest c t eq_refl). reflexivity.
  - simpl in Hr. apply andb_true_iff in Hr. destruct Hr as [Hx Hr].
    simpl. rewrite Hx, (IH Hr). reflexivity.
Qed.

Section WithUnicodeTable.

Variable uni : char -> bool.

Lemma lookbehind_inv (s : str) (i : nat) :
  lookbehind s i = true ->
  exists a t, s = a ++ marker ++ t /\ i = length a + 2 /\ skipn i s = t.
Proof.
  unfold lookbehind. change (length marker) with 2.
  intros H. apply andb_true_iff in H. destruct H as [Hi He].
  apply Nat.leb_le in Hi. apply str_eqb_eq in He.
  assert (i - 2 <= length s) as Hlen.
  { destruct (Nat.le_gt_cases (i - 2) (length s)) as [Hle | Hgt]; [exact Hle|].
    rewrite skipn_all2 in He by lia. discriminate. }
  exists (firstn (i - 2) s), (skipn 2 (skipn (i - 2) s)).
  split; [|split].
  - rewrite <- He, firstn_skipn, firstn_skipn. reflexivity.
  - rewrite length_firstn. lia.
  - rewrite skipn_skipn. f_equal. lia.
Qed.

Lemma lookbehind_at (a t : str) :
  lookbehind (a ++ marker ++ t) (length a + 2) = true /\
  skipn (length a + 2) (a ++ marker ++ t) = t.
Proof.
  assert (forall x : str, skipn (length a) (a ++ x) = x) as Hskip.
  { intros x. rewrite skipn_app, skipn_all, Nat.sub_diag. reflexivity. }
  split.
  - unfold lookbehind. change (length marker) with 2.
    replace (length a + 2 - 2) with (length a) by lia.
    rewrite Hskip. apply andb_true_iff. split.
    + apply Nat.leb_le. lia.
    + apply str_eqb_eq. reflexivity.
  - rewrite Nat.add_comm, <- skipn_skipn, Hskip. reflexivity.
Qed.

(** A match at position [i] is a non-empty run of the class that starts
    right after an occurrence of ["v="] ending at [i]. *)
Lemma match_at_some (s : str) (i : nat) (r : str) :
  match_at uni s i = Some r ->
  r <> [] /\ all_ident uni r = true /\
  exists a c, occurrence s a c /\ i = length a + 2 /\ is_ident uni c = true.
Proof.
  unfold match_at. destruct (lookbehind s i) eqn:L; [|discriminate].
  destruct (lookbehind_inv s i L) as [a [t [Hs [Hi Hk]]]].
  rewrite Hk. destruct (takewhile (is_ident uni) t) as [|c r'] eqn:T;
    [discriminate|].
  intros H. inversion H. subst r. split; [discriminate|]. split.
  - unfold all_ident. rewrite <- T. apply takewhile_forallb.
  - destruct (takewhile_hd _ _ T) as [t' [Ht Hc]].
    exists a, c. split; [|split; assumption].
    exists t'. rewrite Hs, Ht. reflexivity.
Qed.

Lemma match_at_intro (a r rest : str) :
  r <> [] -> all_ident uni r = true ->
  (forall c t, rest = c :: t -> is_ident uni c = false) ->
  match_at uni (a ++ marker ++ r ++ rest) (length a + 2) = Some r.
Proof.
  intros NN Hr Hrest. unfold match_at.
  destruct (lookbehind_at a (r ++ rest)) as [-> ->].
  rewrite (@takewhile_stop (is_ident uni) r rest Hr Hrest).
  destruct r; [congruence | reflexivity].
Qed.

Lemma first_match_app (s : str) (p1 p2 : list nat) :
  first_match uni s (p1 ++ p2) =
  match first_match uni s p1 with
  | Some m => Some m
  | None => first_match uni s p2
  end.
Proof.
  induction p1 as [|i p1 IH]; [reflexivity|].
  simpl. destruct (match_at uni s i); [reflexivity | exact IH].
Qed.

Lemma first_match_none (s : str) (ps : list nat) :
  (forall i, In i ps -> match_at uni s i = None) ->
  first_match uni s ps = None.
Proof.
  induction ps as [|i ps IH]; intros H; [reflexivity|].
  simpl. rewrite (H i (or_introl eq_refl)). apply IH.
  intros j Hj. apply H. right. exact Hj.
Qed.

Lemma first_match_sound (s : str) (ps : list nat) (r : str) :
  first_match uni s ps = Some r ->
  exists i, In i ps /\ match_at uni s i = Some r.
Proof.
  induction ps as [|i ps IH]; [discriminate|].
  simpl. destruct (match_at uni s i) as [m|] eqn:E.
  - intros H. inversion H. subst. exists i. split; [left; reflexivity | exact E].
  - intros H. destruct (IH H) as [j [Hj Hm]]. exists j.
    split; [right; exact Hj | exact Hm].
Qed.

Lemma first_match_complete (s : str) (ps : list nat) (i : nat) (r : str) :
  In i ps -> match_at uni s i = Some r ->
  exists r', first_match uni s ps = Some r'.
Proof.
  induction ps as [|j ps IH]; intros Hin Hm; [destruct Hin|].
  simpl. destruct (match_at uni s j) as [m|] eqn:E; [exists m; reflexivity|].
  destruct Hin as [-> | Hin]; [congruence|]. apply IH; assumption.
Qed.

Lemma occurrence_length (s a : str) (c : char) :
  occurrence s a c -> length a + 2 < S (length s).
Proof.
  intros [t ->]. rewrite length_app. change (marker ++ c :: t)
    with (118%N :: 61%N :: c :: t). simpl. lia.
Qed.

End WithUnicodeTable.

End ExtractFacts.

Module ExtractClaims.

Import Extract ExtractFacts.

(** C7. The extractor returns the longest run of word characters and
    hyphens right after the leftmost ["v="] that is followed by such a
    character; when there is no such ["v="], it returns its input; and the
    three example inputs give "a4sHHnlasPQ", "a4sHHnlasPQ" and "abc-123". *)
Theorem extract_video_id_leftmost_run (uni : char -> bool) (s : str) :
  (forall a r rest,
     s = a ++ marker ++ r ++ rest ->
     r <> [] -> all_ident uni r = true ->
     (forall c t, rest = c :: t -> is_ident uni c = false) ->
     (forall a' c, occurrence s a' c -> length a' < length a ->
                   is_ident uni c = false) ->
     extract_video_id uni s = r) /\
  ((forall a c, occurrence s a c -> is_ident uni c = false) ->
   extract_video_id uni s = s) /\
  extract_video_id uni (py "https://www.youtube.com/watch?v=a4sHHnlasPQ")
    = py "a4sHHnlasPQ" /\
  extract_video_id uni (py "a4sHHnlasPQ") = py "a4sHHnlasPQ" /\
  extract_video_id uni (py "v=abc-123&t=5") = py "abc-123".
Proof.
  split; [|split].
  - intros a r rest Hs NN Hr Hrest Hleft.
    unfold extract_video_id, re_search.
    assert (S (length s) = (length a + 2) + S (length r + length rest)) as L.
    { rewrite Hs. repeat rewrite length_app. change (length marker) with 2. lia. }
    rewrite L, seq_app, first_match_app, first_match_none.
    + rewrite Nat.add_0_l. cbn [seq first_match]. rewrite Hs.
      rewrite (match_at_intro uni a NN Hr Hrest). reflexivity.
    + intros i Hi. apply in_seq in Hi.
      destruct (match_at uni s i) as [m|] eqn:E; [|reflexivity].
      destruct (match_at_some _ _ _ E) as [_ [_ [a' [c [Ho [Hi' Hc]]]]]].
      rewrite (Hleft a' c Ho) in Hc; [discriminate | lia].
  - intros Hno. unfold extract_video_id, re_search.
    rewrite first_match_none; [reflexivity|].
    intros i _. destruct (match_at uni s i) as [m|] eqn:E; [|reflexivity].
    destruct (match_at_some _ _ _ E) as [_ [_ [a [c [Ho [_ Hc]]]]]].
    rewrite (Hno a c Ho) in Hc. discriminate.
  - split; [|split]; vm_compute; reflexivity.
Qed.

Lemma extract_video_id_leftmost_run_witness :
  extract_video_id no_table (py "x&v=abc-123&t=5") = py "abc-123" /\
  extract_video_id no_table (py "hello world") = py "hello world".
Proof.
  split.
  - apply (proj1 (extract_video_id_leftmost_run no_table
                    (py "x&v=abc-123&t=5")) (py "x&") (py "abc-123") (py "&t=5")).
    + reflexivity.
    + discriminate.
    + reflexivity.
    + intros c t H. inversion H. reflexivity.
    + intros a' c [t Ho] Hlen.
      destruct a' as [|x [|y a']]; [| |simpl in Hlen; lia];
        vm_compute in Ho; discriminate.
  - apply (proj1 (proj2 (extract_video_id_leftmost_run no_table
                           (py "hello world")))).
    intros a c [t Ho].
    assert (contains marker (py "hello world") = true) as C
      by (apply contains_spec; exists a, (c :: t); exact Ho).
    vm_compute in C. discriminate.
Defined.

(** C8, as stated: the returned identifier contains only word characters
    and hyphens, also when the input is passed through.  It fails on the
    input "a b", which has no ["v="] and comes back with its space (the
    characters of this input are ASCII, so the table is not consulted). *)
Lemma pass_through_keeps_other_characters :
  extract_video_id no_table (py "a b") = py "a b" /\
  all_ident no_table (extract_video_id no_table (py "a b")) = false.
Proof. split; vm_compute; reflexivity. Qed.

(** C8, amended: when the input has a ["v="] followed by a word character
    or a hyphen, the returned identifier is not empty and contains only
    such characters; when it has none, the input is returned unchanged, so
    the result contains only such characters exactly when the input does. *)
Theorem extracted_identifier_characters (uni : char -> bool) (s : str) :
  ((exists a c, occurrence s a c /\ is_ident uni c = true) ->
   extract_video_id uni s <> [] /\
   all_ident uni (extract_video_id uni s) = true) /\
  ((forall a c, occurrence s a c -> is_ident uni c = false) ->
   extract_video_id uni s = s /\
   all_ident uni (extract_video_id uni s) = all_ident uni s).
Proof.
  split.
  - intros [a [c [Ho Hc]]]. unfold extract_video_id, re_search.
    assert (exists r, match_at uni s (length a + 2) = Some r) as [r Hr].
    { destruct Ho as [t ->]. unfold match_at.
      destruct (lookbehind_at a (c :: t)) as [-> ->].
      simpl. rewrite Hc. eexists. reflexivity. }
    destruct (@first_match_complete uni s (seq 0 (S (length s)))
                (length a + 2) r) as [r' Hr'];
      [apply in_seq; pose proof (occurrence_length Ho); lia | exact Hr |].
    rewrite Hr'. destruct (first_match_sound _ _ _ Hr') as [i [_ Hi]].
    destruct (match_at_some _ _ _ Hi) as [NN [Hall _]]. split; assumption.
  - intros Hno.
    assert (extract_video_id uni s = s) as E.
    { unfold extract_video_id, re_search.
      rewrite first_match_none; [reflexivity|].
      intros i _. destruct (match_at uni s i) as [m|] eqn:E; [|reflexivity].
      destruct (match_at_some _ _ _ E) as [_ [_ [a [c [Ho [_ Hc]]]]]].
      rewrite (Hno a c Ho) in Hc. discriminate. }
    split; [exact E | rewrite E; reflexivity].
Qed.

Lemma extracted_identifier_characters_witness :
  (extract_video_id no_table (py "watch?v=a4sHHnlasPQ&t=1") <> [] /\
   all_ident no_table (extract_video_id no_table (py "watch?v=a4sHHnlasPQ&t=1"))
   = true) /\
  (extract_video_id no_table (py "a b") = py "a b" /\
   all_ident no_table (extract_video_id no_table (py "a b"))
   = all_ident no_table (py "a b")).
Proof.
  split.
  - apply (proj1 (extracted_identifier_characters no_table
                    (py "watch?v=a4sHHnlasPQ&t=1"))).
    exists (py "watch?"), 97%N. split; [|reflexivity].
    exists (py "4sHHnlasPQ&t=1"). reflexivity.
  - apply (proj2 (extracted_identifier_characters no_table (py "a b"))).
    intros a c [t Ho].
    assert (contains marker (py "a b") = true) as C
      by (apply contains_spec; exists a, (c :: t); exact Ho).
    vm_compute in C. discriminate.
Defined.

End ExtractClaims.

(** * The text-completion client *)

Module ClientFacts.

Import Client.

Lemma secrets_lookup_some (w : world) (p : str) :
  secrets_CLARIFAI_PAT w = Some p -> secrets_lookup w = ret (Some p).
Proof.
  unfold secrets_CLARIFAI_PAT, secrets_lookup.
  destruct (secrets w) as [|[v|]]; intros H; inversion H; reflexivity.
Qed.

End ClientFacts.

Module ClientClaims.

Import Client ClientFacts.

Section WithService.

Variable SUCCESS : N.
Variable w : world.
Variable selected_model : model_config.

(** C9. The function does not stop when the credential is missing: with
    the environment variable unset or empty and an empty entry in the
    secrets, it reports nothing and makes the completion call, authorized
    with the bare ["Key "]. *)
Theorem empty_secret_sent_as_credential
    (raw_text prompt : str) (log : list event) :
  truthy_opt (environ_CLARIFAI_PAT w) = false ->
  secrets_CLARIFAI_PAT w = Some [] ->
  exists evs,
    snd (format_with_clarifai_api SUCCESS w selected_model raw_text prompt log)
    = log ++ evs /\
    ~ In (StError missing_pat_message) evs /\
    completion_calls evs
    = [PostModelOutputs (build_request selected_model raw_text prompt)
                        (py "Key ")].
Proof.
  intros Henv Hsec.
  assert (forall msg : str,
            StError (api_error_prefix ++ msg) <> StError missing_pat_message)
    as Hmsg by (intros msg H; inversion H).
  unfold format_with_clarifai_api.
  rewrite (secrets_lookup_some _ Hsec).
  unfold bind, ret, try_except_KeyError, emit, raise. rewrite Henv.
  cbn [negb key_plus ret]. rewrite app_nil_r.
  destruct (negb (status_code _ =? SUCCESS)%N).
  - eexists. split; [cbn [snd]; rewrite <- !app_assoc; reflexivity|].
    split; [|reflexivity].
    intros [H | [H | [H | []]]]; first [discriminate H | exact (Hmsg _ H)].
  - unfold first_output, ret, raise.
    destruct (outputs _); (eexists; split;
      [cbn [snd]; rewrite <- !app_assoc; reflexivity|]; split;
      [intros [H | [H | []]]; discriminate H | reflexivity]).
Qed.

(** C10. With a credential at hand, a response whose status is not
    [SUCCESS] makes the function report the provider's description with
    [st.error] and return [None]; the step that called it then stores
    [None] as its own result and leaves the results of the earlier steps
    as they were. *)
Theorem provider_error_returns_none (p : str) (log : list event) :
  (environ_CLARIFAI_PAT w = Some p /\ truthy p = true) \/
  (truthy_opt (environ_CLARIFAI_PAT w) = false /\
   secrets_CLARIFAI_PAT w = Some p) ->
  let authorization := py "Key " ++ p in
  let answer raw_text prompt :=
    hosted_model w (build_request selected_model raw_text prompt) authorization in
  (forall raw_text prompt,
     status_code (answer raw_text prompt) <> SUCCESS ->
     format_with_clarifai_api SUCCESS w selected_model raw_text prompt log
     = (Returned None,
        log ++ [GetGrpcChannel;
                PostModelOutputs (build_request selected_model raw_text prompt)
                                 authorization;
                StError (api_error_prefix
                         ++ status_description (answer raw_text prompt))])) /\
  (forall ss,
     status_code (answer (subtitles ss) format_prompt) <> SUCCESS ->
     fst (punctuate_script SUCCESS w selected_model ss log)
     = Returned (mkSession (subtitles ss) None (video_description ss))) /\
  (forall ss ft,
     formatted_text ss = Some ft ->
     status_code (answer ft video_prompt) <> SUCCESS ->
     fst (generate_title SUCCESS w selected_model ss log)
     = Returned (mkSession (subtitles ss) (Some ft) None)).
Proof.
  intros Hcred authorization answer.
  assert (forall raw_text prompt,
     status_code (answer raw_text prompt) <> SUCCESS ->
     format_with_clarifai_api SUCCESS w selected_model raw_text prompt log
     = (Returned None,
        log ++ [GetGrpcChannel;
                PostModelOutputs (build_request selected_model raw_text prompt)
                                 authorization;
                StError (api_error_prefix
                         ++ status_description (answer raw_text prompt))]))
    as Hcall.
  { intros raw_text prompt Hst. apply N.eqb_neq in Hst.
    unfold format_with_clarifai_api.
    destruct Hcred as [[Henv Hp] | [Henv Hsec]].
    - unfold bind, ret, try_except_KeyError, emit, raise.
      rewrite Henv. cbn [truthy_opt]. rewrite Hp. cbn [negb key_plus ret].
      fold authorization. fold (answer raw_text prompt). rewrite Hst.
      cbn [negb]. repeat rewrite <- app_assoc. reflexivity.
    - rewrite (secrets_lookup_some _ Hsec).
      unfold bind, ret, try_except_KeyError, emit, raise. rewrite Henv.
      cbn [negb key_plus ret].
      fold authorization. fold (answer raw_text prompt). rewrite Hst.
      cbn [negb]. repeat rewrite <- app_assoc. reflexivity. }
  split; [exact Hcall|]. split.
  - intros ss Hst. unfold punctuate_script, bind.
    rewrite (Hcall _ _ Hst). reflexivity.
  - intros ss ft Hft Hst. unfold generate_title, bind. rewrite Hft.
    rewrite (Hcall _ _ Hst). reflexivity.
Qed.

End WithService.

Lemma empty_secret_sent_as_credential_witness :
  exists evs,
    snd (format_with_clarifai_api 10000 world_empty_secret llama2_7b
           (py "hello world") format_prompt [])
    = [] ++ evs /\
    ~ In (StError missing_pat_message) evs /\
    completion_calls evs
    = [PostModelOutputs
         (build_request llama2_7b (py "hello world") format_prompt)
         (py "Key ")].
Proof.
  apply empty_secret_sent_as_credential; reflexivity.
Defined.

Lemma provider_error_returns_none_witness :
  format_with_clarifai_api 10000 world_rejecting llama2_7b
    (py "hello world") format_prompt []
  = (Returned None,
     [GetGrpcChannel;
      PostModelOutputs (build_request llama2_7b (py "hello world") format_prompt)
                       (py "Key pat");
      StError (py "Error from Clarifai API: Invalid API key")]) /\
  fst (punctuate_script 10000 world_rejecting llama2_7b
         (mkSession (py "hello world") None None) [])
  = Returned (mkSession (py "hello world") None None) /\
  fst (generate_title 10000 world_rejecting llama2_7b
         (mkSession (py "hello world") (Some (py "Hello, world.")) None) [])
  = Returned (mkSession (py "hello world") (Some (py "Hello, world.")) None).
Proof.
  destruct (@provider_error_returns_none 10000%N world_rejecting llama2_7b
              (py "pat") [])
    as [H1 [H2 H3]].
  - left. split; reflexivity.
  - split; [|split].
    + apply (H1 (py "hello world") format_prompt). discriminate.
    + apply (H2 (mkSession (py "hello world") None None)). discriminate.
    + apply (H3 (mkSession (py "hello world") (Some (py "Hello, world.")) None)
                (py "Hello, world.")); [reflexivity | discriminate].
Defined.

End ClientClaims.

(** * Further properties of the caption filter *)

Module TranscriptFacts.

Import Cues.

(** Every list of lines is a marker-free header followed by cue blocks. *)
Lemma parse_cues_sound (lines : list str) :
  lines = fst (parse_cues lines) ++ flat_map cue_lines (snd (parse_cues lines)) /\
  (forall l, In l (fst (parse_cues lines)) -> is_marker l = false) /\
  (forall c, In c (snd (parse_cues lines)) -> well_formed_cue c).
Proof.
  induction lines as [|l rest IH];
    [split; [reflexivity | split; intros ? []]|].
  cbn [parse_cues]. destruct (parse_cues rest) as [body cues].
  cbn [fst snd] in IH. destruct IH as [E [Hb Hc]].
  destruct (is_marker l) eqn:M; cbn [fst snd].
  - split; [|split].
    + cbn [app flat_map cue_lines fst snd]. rewrite E at 1. reflexivity.
    + intros ? [].
    + intros c [<- | Hin]; [split; [exact M | exact Hb] | apply Hc; exact Hin].
  - split; [|split].
    + cbn [app]. rewrite E at 1. reflexivity.
    + intros x [<- | Hin]; [exact M | apply Hb; exact Hin].
    + exact Hc.
Qed.

Lemma parse_cues_count (lines : list str) :
  length (snd (parse_cues lines)) = count_markers lines.
Proof.
  unfold count_markers. induction lines as [|l rest IH]; [reflexivity|].
  cbn [parse_cues filter]. destruct (parse_cues rest) as [body cues].
  cbn [snd] in IH. destruct (is_marker l); cbn [snd length]; lia.
Qed.

Lemma first_candidate_none (body : list str) :
  first_candidate body = None ->
  forall l, In l body -> is_candidate l = false.
Proof.
  unfold first_candidate, is_candidate. intros H l Hl.
  apply (find_none _ _ H). apply in_map. exact Hl.
Qed.

(** What one cue does to the captured lines. *)
Lemma cue_content (c : cue) (st : state) :
  well_formed_cue c ->
  content_lines (run st (cue_lines c)) =
  content_lines st ++
  squeeze_after (last_line (content_lines st)) (candidates [c]).
Proof.
  intros Hw. unfold candidates. cbn [flat_map]. rewrite app_nil_r.
  destruct (first_candidate (snd c)) as [L|] eqn:F.
  - rewrite (cue_run st Hw F). cbn [content_lines squeeze_after].
    unfold should_append. destruct (last_line (content_lines st)) as [p|].
    + destruct (str_eqb p L); cbn [negb]; [rewrite app_nil_r|]; reflexivity.
    + reflexivity.
  - destruct Hw as [Hm Hb]. unfold cue_lines.
    rewrite run_cons, (step_marker st _ Hm).
    rewrite run_no_candidate;
      [| exact Hb | apply first_candidate_none; exact F].
    cbn [content_lines squeeze_after]. rewrite app_nil_r. reflexivity.
Qed.

Lemma squeeze_after_app (prev : option str) (a b : list str) :
  squeeze_after prev (a ++ b) =
  squeeze_after prev a ++
  squeeze_after (last_line (match prev with Some p => [p] | None => [] end
                            ++ squeeze_after prev a)) b.
Proof.
  revert prev. induction a as [|x a IH]; intros prev.
  - cbn [app squeeze_after]. rewrite app_nil_r.
    destruct prev; reflexivity.
  - cbn [app squeeze_after].
    destruct (match prev with Some p => str_eqb p x | None => false end) eqn:E.
    + apply IH.
    + rewrite IH. cbn [app]. f_equal. f_equal.
      generalize (squeeze_after (Some x) a). intros t.
      unfold last_line. destruct prev as [p|]; cbn [app rev].
      * rewrite <- app_assoc. destruct (rev t); reflexivity.
      * reflexivity.
Qed.

Lemma last_line_app_prev (cl t : list str) :
  last_line (cl ++ t) =
  last_line (match last_line cl with Some p => [p] | None => [] end ++ t).
Proof.
  induction t as [|z t _] using rev_ind.
  - rewrite 2 app_nil_r. destruct (last_line cl); reflexivity.
  - rewrite 2 app_assoc, 2 last_line_snoc. reflexivity.
Qed.

Lemma candidates_cons (c : cue) (cues : list cue) :
  candidates (c :: cues) = candidates [c] ++ candidates cues.
Proof. unfold candidates. cbn [flat_map]. rewrite app_nil_r. reflexivity. Qed.

Lemma cues_content (cues : list cue) (st : state) :
  (forall c, In c cues -> well_formed_cue c) ->
  content_lines (run st (flat_map cue_lines cues)) =
  content_lines st ++
  squeeze_after (last_line (content_lines st)) (candidates cues).
Proof.
  revert st. induction cues as [|c cues IH]; intros st H.
  - cbn. rewrite app_nil_r. reflexivity.
  - cbn [flat_map]. rewrite run_app, IH
      by (intros x Hx; apply H; right; exact Hx).
    rewrite (cue_content st (H c (or_introl eq_refl))).
    rewrite (candidates_cons c cues), squeeze_after_app, <- app_assoc. f_equal. f_equal. f_equal.
    apply last_line_app_prev.
Qed.

Lemma squeeze_after_length (prev : option str) (ls : list str) :
  length (squeeze_after prev ls) <= length ls.
Proof.
  revert prev. induction ls as [|a ls IH]; intros prev; [simpl; lia|].
  cbn [squeeze_after length].
  destruct (match prev with Some p => str_eqb p a | None => false end).
  - specialize (IH prev). lia.
  - specialize (IH (Some a)). cbn [length]. lia.
Qed.

Lemma candidates_length (cues : list cue) :
  length (candidates cues) <= length cues.
Proof.
  induction cues as [|c cues IH]; [simpl; lia|].
  rewrite (candidates_cons c cues), length_app. unfold candidates at 1. cbn [flat_map].
  destruct (first_candidate (snd c)); cbn [length app]; lia.
Qed.

Lemma run_subseq (ls : list str) (st : state) :
  exists added,
    content_lines (run st ls) = content_lines st ++ added /\
    subseq added (map strip ls).
Proof.
  revert st. induction ls as [|l ls IH]; intros st.
  - exists []. split; [rewrite app_nil_r; reflexivity | constructor].
  - rewrite run_cons. destruct (IH (step st l)) as [added [E S]].
    destruct (step_content st l) as [C | [C _]]; rewrite C in E.
    + exists added. split; [exact E | apply subseq_skip; exact S].
    + exists (strip l :: added). split.
      * rewrite E, <- app_assoc. reflexivity.
      * apply subseq_take. exact S.
Qed.

End TranscriptFacts.

Module FilterExtras.

Import Cues TranscriptFacts.

(** X1. The transcript is a function of the cues alone: it lists the first
    candidate line of each cue (a marker and the lines up to the next
    marker), with the lines that repeat the one listed before them left
    out; header lines and the other lines of a cue do not matter. *)
Theorem transcript_is_squeezed_candidates (s : str) :
  captured s = squeeze (candidates (snd (parse_cues (split_nl s)))) /\
  filter_subtitles s
  = join_nl (squeeze (candidates (snd (parse_cues (split_nl s))))).
Proof.
  assert (captured s = squeeze (candidates (snd (parse_cues (split_nl s)))))
    as E.
  { destruct (parse_cues_sound (split_nl s)) as [E [Hh Hc]].
    rewrite captured_raw. rewrite E at 1.
    rewrite run_app, (run_idle _ init Hh (or_introl eq_refl)).
    rewrite (cues_content _ init Hc). reflexivity. }
  split; [exact E|]. unfold filter_subtitles. rewrite E. reflexivity.
Qed.

(** X2. The transcript has at most as many lines as the document has
    timing markers. *)
Theorem transcript_lines_bounded_by_markers (s : str) :
  length (captured s) <= count_markers (split_nl s).
Proof.
  destruct (parse_cues_sound (split_nl s)) as [E [Hh Hc]].
  rewrite captured_raw. rewrite E at 1.
  rewrite run_app, (run_idle _ init Hh (or_introl eq_refl)).
  rewrite (cues_content _ init Hc). cbn [content_lines init app].
  rewrite <- parse_cues_count.
  pose proof (squeeze_after_length None
                (candidates (snd (parse_cues (split_nl s))))).
  pose proof (candidates_length (snd (parse_cues (split_nl s)))).
  cbn [last_line rev] in *. lia.
Qed.

(** X3. The captured lines are stripped lines of the document, in the
    order of the document. *)
Theorem transcript_preserves_order (s : str) :
  subseq (captured s) (map strip (split_nl s)).
Proof.
  rewrite captured_raw.
  destruct (run_subseq (split_nl s) init) as [added [E S]].
  rewrite E. exact S.
Qed.

(** X4. Whitespace (blank lines included) before and after the document
    does not change the transcript. *)
Theorem surrounding_whitespace_ignored (w1 s w2 : str) :
  allws w1 -> allws w2 ->
  filter_subtitles (w1 ++ s ++ w2) = filter_subtitles s.
Proof.
  intros H1 H2. unfold filter_subtitles. f_equal.
  rewrite 2 captured_raw. rewrite (run_seen (split_nl (w1 ++ s ++ w2))).
  rewrite (seen_ws_l _ H1), (seen_ws_r _ H2), <- run_seen. reflexivity.
Qed.

Lemma surrounding_whitespace_ignored_witness :
  filter_subtitles (py "  " ++ nl :: doc_two_cues ++ [nl; nl])
  = filter_subtitles doc_two_cues.
Proof.
  apply (@surrounding_whitespace_ignored (py "  " ++ [nl]) doc_two_cues [nl; nl]);
    repeat constructor.
Defined.

(** X5. Text before the first timing marker never reaches the transcript:
    a header without ["-->"] put before a document changes nothing. *)
Theorem header_ignored (h d : str) :
  (forall l, In l (split_nl h) -> contains arrow l = false) ->
  filter_subtitles (h ++ nl :: d) = filter_subtitles d.
Proof.
  intros H. unfold filter_subtitles. f_equal. rewrite 2 captured_raw.
  assert (split_nl (h ++ nl :: d) = split_nl h ++ split_nl d) as E.
  { rewrite split_nl_app.
    change (split_nl (nl :: d)) with ([] :: split_nl d).
    cbn [hd tl]. rewrite app_nil_r. rewrite (split_last h) at 3.
    rewrite <- app_assoc. reflexivity. }
  rewrite E, run_app, (@run_idle (split_nl h) init);
    [reflexivity | | left; reflexivity].
  intros l Hl. unfold is_marker. apply strip_contains_false, H, Hl.
Qed.

Lemma header_ignored_witness :
  filter_subtitles (py "WEBVTT" ++ nl :: py "Kind: captions" ++ nl :: doc_two_cues)
  = filter_subtitles doc_two_cues.
Proof.
  rewrite app_comm_cons, app_assoc.
  apply (@header_ignored (py "WEBVTT" ++ nl :: py "Kind: captions") doc_two_cues).
  intros l [<- | [<- | []]]; vm_compute; reflexivity.
Defined.

(** X22. Every line of the transcript is a stripped line of the document
    that is not blank, has no whitespace at its ends and holds no line
    break. *)
Theorem transcript_lines_stripped_nonempty (s l : str) :
  In l (captured s) ->
  l <> [] /\ strip l = l /\ ~ In nl l /\
  exists raw, In raw (split_nl s) /\ l = strip raw.
Proof.
  intros H. pose proof (captured_clean s) as C. rewrite Forall_forall in C.
  destruct (C l H) as [Hs [He Hnl]].
  split; [intros ->; discriminate He|]. split; [exact Hs|].
  split; [exact Hnl|].
  rewrite captured_raw in H.
  destruct (run_subseq (split_nl s) init) as [added [E S]].
  rewrite E in H. cbn [content_lines init app] in H.
  assert (forall a b, subseq a b -> forall x, In x a -> In x b) as Sub.
  { induction 1 as [|a b y _ IH|a b x _ IH]; intros z Hz.
    - exact Hz.
    - right. apply IH. exact Hz.
    - destruct Hz as [<- | Hz]; [left; reflexivity | right; apply IH; exact Hz]. }
  apply (Sub _ _ S) in H. apply in_map_iff in H.
  destruct H as [raw [Hr Hin]]. exists raw. split; [exact Hin | symmetry; exact Hr].
Qed.

Lemma transcript_lines_stripped_nonempty_witness :
  py "hello world" <> [] /\ strip (py "hello world") = py "hello world" /\
  ~ In nl (py "hello world") /\
  exists raw, In raw (split_nl doc_two_cues) /\ py "hello world" = strip raw.
Proof.
  apply (@transcript_lines_stripped_nonempty doc_two_cues (py "hello world")).
  vm_compute. left. reflexivity.
Defined.

End FilterExtras.

(** * The caption fetcher *)

Module FetchFacts.

Import Fetch.

Lemma replace_char_app (old : char) (new a b : str) :
  replace_char old new (a ++ b)
  = replace_char old new a ++ replace_char old new b.
Proof. unfold replace_char. apply flat_map_app. Qed.

Lemma replace_char_id (old : char) (new s : str) :
  ~ In old s -> replace_char old new s = s.
Proof.
  induction s as [|c s IH]; intros H; [reflexivity|].
  unfold replace_char in *. cbn [flat_map].
  destruct (chr_eqb c old) eqn:E.
  - apply chr_eqb_eq in E. exfalso. apply H. left. exact E.
  - rewrite IH by (intros Hin; apply H; right; exact Hin). reflexivity.
Qed.

Lemma replace_char_In (old : char) (new s : str) (c : char) :
  In c (replace_char old new s) -> (In c s /\ c <> old) \/ In c new.
Proof.
  unfold replace_char. intros H. apply in_flat_map in H.
  destruct H as [x [Hx Hc]]. destruct (chr_eqb x old) eqn:E.
  - right. exact Hc.
  - destruct Hc as [<- | []]. left. split; [exact Hx|].
    intros ->. rewrite chr_eqb_refl in E. discriminate.
Qed.

Lemma replace_nl_join (ls : list str) :
  (forall l, In l ls -> ~ In nl l) ->
  replace_char nl [space] (join_nl ls) = join_space ls.
Proof.
  induction ls as [|l ls IH]; intros H; [reflexivity|].
  destruct ls as [|l2 ls].
  - simpl. apply replace_char_id. apply H. left. reflexivity.
  - change (join_nl (l :: l2 :: ls)) with (l ++ [nl] ++ join_nl (l2 :: ls)).
    change (join_space (l :: l2 :: ls))
      with (l ++ [space] ++ join_space (l2 :: ls)).
    rewrite 2 replace_char_app.
    rewrite replace_char_id by (apply H; left; reflexivity).
    rewrite IH by (intros x Hx; apply H; right; exact Hx). reflexivity.
Qed.

Lemma join_nl_In (ls : list str) (c : char) :
  In c (join_nl ls) -> c = nl \/ exists l, In l ls /\ In c l.
Proof.
  induction ls as [|l ls IH]; intros H; [destruct H|].
  destruct ls as [|l2 ls].
  - right. exists l. split; [left; reflexivity | exact H].
  - change (join_nl (l :: l2 :: ls)) with (l ++ nl :: join_nl (l2 :: ls)) in H.
    apply in_app_or in H. destruct H as [H | [<- | H]].
    + right. exists l. split; [left; reflexivity | exact H].
    + left. reflexivity.
    + destruct (IH H) as [-> | [x [Hx Hc]]]; [left; reflexivity|].
      right. exists x. split; [right; exact Hx | exact Hc].
Qed.

(** The returned expression: the captured lines joined by spaces, without
    carriage returns. *)
Lemma flatten_lines (content : str) :
  flatten content = replace_char cr [] (join_space (captured content)).
Proof.
  unfold flatten, filter_subtitles. rewrite replace_nl_join; [reflexivity|].
  intros l Hl. pose proof (captured_clean content) as C.
  rewrite Forall_forall in C. destruct (C l Hl) as [_ [_ Hnl]]. exact Hnl.
Qed.

Lemma flatten_chars (content : str) (c : char) :
  In c (flatten content) ->
  c <> nl /\ c <> cr /\ c <> 60%N /\ c <> 62%N.
Proof.
  unfold flatten. intros H.
  apply replace_char_In in H. destruct H as [[H Hcr] | []].
  apply replace_char_In in H. destruct H as [[H Hnl] | [<- | []]].
  - split; [exact Hnl|]. split; [exact Hcr|].
    apply join_nl_In in H. destruct H as [-> | [l [Hl Hc]]]; [congruence|].
    pose proof (captured_clean content) as C. rewrite Forall_forall in C.
    destruct (C l Hl) as [_ [He _]]. unfold eligible in He.
    apply andb_true_iff in He. destruct He as [He Hg].
    apply andb_true_iff in He. destruct He as [_ Hlt].
    apply negb_true_iff in Hg, Hlt. split; intros ->.
    + assert (contains lt_tag l = true) as E by (apply contains_char; exact Hc).
      congruence.
    + assert (contains gt_tag l = true) as E by (apply contains_char; exact Hc).
      congruence.
  - repeat split; discriminate.
Qed.

End FetchFacts.

Module FetchExtras.

Import Fetch FetchFacts.

(** X6. When [download_subtitles] returns a text, the temporary file is
    gone, and the text is the transcript of the file the downloader left
    on one line: the captured lines joined by single spaces, carriage
    returns deleted, with no line break and no ['<'] or ['>'] in it. *)
Theorem downloaded_text_is_one_line
    (ydl : downloader) (video_id : str) (file after : temp_file) (r : str) :
  download_subtitles ydl video_id file = (Returned r, after) ->
  after = None /\
  (exists content,
     ydl video_id file = (None, Some content) /\
     r = replace_char cr [] (join_space (captured content))) /\
  (forall c, In c r -> c <> nl /\ c <> cr /\ c <> 60%N /\ c <> 62%N).
Proof.
  unfold download_subtitles.
  destruct (ydl video_id file) as [[e|] [content|]]; intros H;
    inversion H; subst.
  split; [reflexivity|]. split.
  - exists content. split; [reflexivity | apply flatten_lines].
  - intros c. apply flatten_chars.
Qed.

Lemma downloaded_text_is_one_line_witness :
  None = (None : temp_file) /\
  (exists content,
     (fun (_ : str) (_ : temp_file) => (@None exception, Some doc_two_cues))
       (py "a4sHHnlasPQ") None = (None, Some content) /\
     py "hello world" = replace_char cr [] (join_space (captured content))) /\
  (forall c, In c (py "hello world") ->
             c <> nl /\ c <> cr /\ c <> 60%N /\ c <> 62%N).
Proof.
  apply (@downloaded_text_is_one_line
           (fun _ _ => (None, Some doc_two_cues)) (py "a4sHHnlasPQ") None).
  vm_compute. reflexivity.
Defined.

End FetchExtras.

(** * [extract_string] *)

Module QuotedFacts.

Import Quoted.

Lemma lazy_until_some (close rest g : str) :
  lazy_until close rest = Some g -> exists b, rest = g ++ close ++ b.
Proof.
  revert g. induction rest as [|c t IH]; intros g.
  - cbn [lazy_until]. destruct (startswith close []) eqn:E; [|discriminate].
    apply startswith_spec in E. intros H. inversion H. exact E.
  - cbn [lazy_until]. destruct (startswith close (c :: t)) eqn:E.
    + apply startswith_spec in E. intros H. inversion H. exact E.
    + destruct (lazy_until close t) as [g'|]; [|discriminate].
      intros H. inversion H. destruct (IH g' eq_refl) as [b ->].
      exists b. reflexivity.
Qed.

Lemma lazy_until_none (close rest : str) :
  lazy_until close rest = None -> contains close rest = false.
Proof.
  induction rest as [|c t IH].
  - cbn [lazy_until contains]. destruct (startswith close []);
      [discriminate | reflexivity].
  - cbn [lazy_until contains]. destruct (startswith close (c :: t));
      [discriminate|].
    destruct (lazy_until close t); [discriminate|]. intros _.
    apply IH. reflexivity.
Qed.

(** Without a quote in it, the group runs to the closing quotes. *)
Lemma lazy_until_plain (g b : str) :
  ~ In quote g -> lazy_until triple (g ++ triple ++ b) = Some g.
Proof.
  induction g as [|c g IH]; intros H; [reflexivity|].
  assert (chr_eqb quote c = false) as E.
  { destruct (chr_eqb quote c) eqn:E; [|reflexivity].
    apply chr_eqb_eq in E. exfalso. apply H. left. symmetry. exact E. }
  cbn [app lazy_until startswith triple]. rewrite E. cbn [andb].
  change (g ++ quote :: quote :: quote :: b) with (g ++ triple ++ b).
  rewrite IH by (intros Hin; apply H; right; exact Hin). reflexivity.
Qed.

Lemma qmatch_some (s : str) (i : nat) (g : str) :
  match_at s i = Some g -> exists a b, s = a ++ triple ++ g ++ triple ++ b.
Proof.
  unfold match_at. destruct (startswith triple (skipn i s)) eqn:E;
    [|discriminate].
  apply startswith_spec in E. destruct E as [r Hr]. intros H.
  rewrite Nat.add_comm, <- skipn_skipn, Hr in H.
  change (skipn (length triple) (triple ++ r)) with r in H.
  destruct (lazy_until_some _ _ H) as [b ->].
  exists (firstn i s), b. rewrite <- Hr. symmetry. apply firstn_skipn.
Qed.

Lemma qmatch_at (a r : str) :
  match_at (a ++ triple ++ r) (length a) = lazy_until triple r.
Proof.
  assert (forall x : str, skipn (length a) (a ++ x) = x) as Hskip.
  { intros x. rewrite skipn_app, skipn_all, Nat.sub_diag. reflexivity. }
  unfold match_at. rewrite Hskip.
  rewrite Nat.add_comm, <- skipn_skipn, Hskip. reflexivity.
Qed.

Lemma qmatch_before (a x : str) (j : nat) :
  ~ In quote a -> j < length a -> match_at (a ++ x) j = None.
Proof.
  intros H Hj. unfold match_at. rewrite skipn_app.
  destruct (skipn j a) as [|c t] eqn:E.
  - apply (f_equal (@length char)) in E. rewrite length_skipn in E.
    simpl in E. lia.
  - assert (In c a) as Hc
      by (rewrite <- (firstn_skipn j a), E; apply in_or_app; right; left;
          reflexivity).
    cbn [app startswith triple].
    destruct (chr_eqb quote c) eqn:Q; [|reflexivity].
    apply chr_eqb_eq in Q. subst c. contradiction.
Qed.

Lemma qfirst_app (s : str) (p1 p2 : list nat) :
  first_match s (p1 ++ p2) =
  match first_match s p1 with
  | Some g => Some g
  | None => first_match s p2
  end.
Proof.
  induction p1 as [|i p1 IH]; [reflexivity|].
  simpl. destruct (match_at s i); [reflexivity | exact IH].
Qed.

Lemma qfirst_none (s : str) (ps : list nat) :
  (forall i, In i ps -> match_at s i = None) -> first_match s ps = None.
Proof.
  induction ps as [|i ps IH]; intros H; [reflexivity|].
  simpl. rewrite (H i (or_introl eq_refl)). apply IH.
  intros j Hj. apply H. right. exact Hj.
Qed.

Lemma qfirst_sound (s : str) (ps : list nat) (g : str) :
  first_match s ps = Some g -> exists i, In i ps /\ match_at s i = Some g.
Proof.
  induction ps as [|i ps IH]; [discriminate|].
  simpl. destruct (match_at s i) as [m|] eqn:E.
  - intros H. inversion H. subst. exists i. split; [left; reflexivity | exact E].
  - intros H. destruct (IH H) as [j [Hj Hm]]. exists j.
    split; [right; exact Hj | exact Hm].
Qed.

Lemma qfirst_complete (s : str) (ps : list nat) (i : nat) (g : str) :
  In i ps -> match_at s i = Some g -> exists g', first_match s ps = Some g'.
Proof.
  induction ps as [|j ps IH]; intros Hin Hm; [destruct Hin|].
  simpl. destruct (match_at s j) as [m|] eqn:E; [exists m; reflexivity|].
  destruct Hin as [-> | Hin]; [congruence|]. apply IH; assumption.
Qed.

End QuotedFacts.

Module QuotedExtras.

Import Quoted QuotedFacts.

(** X7. [extract_string] returns a group exactly when the text has two
    triple quotes, one after the end of the other; the group it returns
    stands between two triple quotes of the text. *)
Theorem extract_string_needs_two_triples (s : str) :
  (forall g, extract_string s = Some g ->
             exists a b, s = a ++ triple ++ g ++ triple ++ b) /\
  ((exists g, extract_string s = Some g) <->
   (exists a g b, s = a ++ triple ++ g ++ triple ++ b)).
Proof.
  assert (forall g, extract_string s = Some g ->
                    exists a b, s = a ++ triple ++ g ++ triple ++ b) as Hs.
  { intros g H. unfold extract_string in H.
    destruct (qfirst_sound _ _ H) as [i [_ Hi]]. exact (qmatch_some _ _ Hi). }
  split; [exact Hs|]. split.
  - intros [g H]. destruct (Hs g H) as [a [b E]]. exists a, g, b. exact E.
  - intros [a [g [b E]]]. unfold extract_string.
    destruct (lazy_until triple (g ++ triple ++ b)) as [g'|] eqn:L.
    + apply (@qfirst_complete s _ (length a) g').
      * apply in_seq. rewrite E, length_app. lia.
      * rewrite E, qmatch_at. exact L.
    + apply lazy_until_none in L.
      assert (contains triple (g ++ triple ++ b) = true) as C
        by (apply contains_spec; exists g, b; reflexivity).
      congruence.
Qed.

Lemma extract_string_needs_two_triples_witness :
  exists g, extract_string (triple ++ py "a" ++ triple) = Some g.
Proof.
  apply (proj2 (proj2 (extract_string_needs_two_triples
                         (triple ++ py "a" ++ triple)))).
  exists [], (py "a"), []. reflexivity.
Defined.

(** X8. A text put between triple quotes comes back: when neither the part
    before the opening quotes nor the quoted text contains a quote
    character, [extract_string] returns the quoted text, whatever
    follows the closing quotes. *)
Theorem extract_string_round_trip (a g b : str) :
  ~ In quote a -> ~ In quote g ->
  extract_string (a ++ triple ++ g ++ triple ++ b) = Some g.
Proof.
  intros Ha Hg. unfold extract_string.
  assert (S (length (a ++ triple ++ g ++ triple ++ b))
          = length a + S (length (triple ++ g ++ triple ++ b))) as L
    by (rewrite length_app; lia).
  rewrite L, seq_app, qfirst_app, qfirst_none.
  - rewrite Nat.add_0_l. cbn [seq first_match].
    rewrite qmatch_at, (@lazy_until_plain g b Hg). reflexivity.
  - intros i Hi. apply in_seq in Hi. apply qmatch_before; [exact Ha | lia].
Qed.

Lemma extract_string_round_trip_witness :
  extract_string (py "Title: " ++ triple ++ py "My video" ++ triple ++ py " end")
  = Some (py "My video").
Proof.
  apply extract_string_round_trip; vm_compute;
    repeat (intros [H | H]; [discriminate | revert H]); intros [].
Defined.

End QuotedExtras.

(** * Further properties of the identifier extractor *)

Module ExtractExtras.

Import Extract ExtractFacts.

Section WithUnicodeTable.

Variable uni : char -> bool.

Lemma match_at_infix (s : str) (i : nat) (r : str) :
  match_at uni s i = Some r -> exists a b, s = a ++ r ++ b.
Proof.
  unfold match_at. destruct (lookbehind s i) eqn:L; [|discriminate].
  destruct (lookbehind_inv s i L) as [a [t [Hs [_ Hk]]]]. rewrite Hk.
  destruct (takewhile (is_ident uni) t) as [|c r'] eqn:T; [discriminate|].
  intros H. inversion H. subst r.
  exists (a ++ marker), (dropwhile (is_ident uni) t).
  rewrite <- T, <- take_drop, <- app_assoc. exact Hs.
Qed.

(** An identifier has no ["v="] in it: ['='] is not in the class. *)
Lemma ident_no_match (r : str) (i : nat) :
  all_ident uni r = true -> match_at uni r i = None.
Proof.
  intros H. destruct (match_at uni r i) as [m|] eqn:E; [|reflexivity].
  destruct (match_at_some _ _ _ E) as [_ [_ [a [c [[t Ho] _]]]]].
  unfold all_ident in H. rewrite forallb_forall in H.
  assert (is_ident uni 61%N = true) as C.
  { apply H. rewrite Ho. apply in_or_app. right. right. left. reflexivity. }
  discriminate C.
Qed.

Lemma ident_pass_through (r : str) :
  all_ident uni r = true -> extract_video_id uni r = r.
Proof.
  intros H. unfold extract_video_id, re_search.
  rewrite first_match_none; [reflexivity|].
  intros i _. apply ident_no_match. exact H.
Qed.

Lemma re_search_some (s r : str) :
  re_search uni s = Some r ->
  r <> [] /\ all_ident uni r = true /\ exists a b, s = a ++ r ++ b.
Proof.
  unfold re_search. intros H.
  destruct (first_match_sound _ _ _ H) as [i [_ Hi]].
  destruct (match_at_some _ _ _ Hi) as [NN [Hall _]].
  split; [exact NN|]. split; [exact Hall|]. exact (match_at_infix _ _ Hi).
Qed.

(** X9. Extracting twice is extracting once: what [extract_video_id]
    returns is returned unchanged when given back to it. *)
Theorem extract_video_id_idempotent (s : str) :
  extract_video_id uni (extract_video_id uni s) = extract_video_id uni s.
Proof.
  unfold extract_video_id at 2 3. destruct (re_search uni s) as [r|] eqn:R.
  - apply ident_pass_through. apply (@re_search_some s r R).
  - unfold extract_video_id. rewrite R. reflexivity.
Qed.

(** X10. The watch URL the script builds from an identifier gives the
    identifier back: for a non-empty identifier of word characters and
    hyphens, [extract_video_id] of
    ["https://www.youtube.com/watch?v=" + identifier] is the identifier. *)
Theorem extract_video_id_of_watch_url (video_id : str) :
  video_id <> [] -> all_ident uni video_id = true ->
  extract_video_id uni (Script.youtube_url video_id) = video_id.
Proof.
  intros NN H. unfold extract_video_id, re_search, Script.youtube_url.
  assert (S (length (py "https://www.youtube.com/watch?v=" ++ video_id))
          = 32 + S (length video_id)) as L
    by (rewrite length_app; reflexivity).
  rewrite L, seq_app, first_match_app.
  assert (first_match uni (py "https://www.youtube.com/watch?v=" ++ video_id)
                      (seq 0 32) = None) as -> by (vm_compute; reflexivity).
  cbn [seq first_match Nat.add].
  pose proof (@match_at_intro uni (py "https://www.youtube.com/watch?")
                video_id [] NN H) as M.
  rewrite app_nil_r in M.
  change (py "https://www.youtube.com/watch?v=" ++ video_id)
    with (py "https://www.youtube.com/watch?" ++ marker ++ video_id).
  change 32 with (length (py "https://www.youtube.com/watch?") + 2).
  rewrite M by (intros c t E; discriminate). reflexivity.
Qed.

(** X11. The result is a piece of the input, and it is empty only for the
    empty input. *)
Theorem extract_video_id_part_of_input (s : str) :
  (exists a b, s = a ++ extract_video_id uni s ++ b) /\
  (s <> [] -> extract_video_id uni s <> []).
Proof.
  unfold extract_video_id. destruct (re_search uni s) as [r|] eqn:R.
  - destruct (@re_search_some s r R) as [NN [_ Hin]]. split; [exact Hin|].
    intros _. exact NN.
  - split; [|intros H; exact H]. exists [], []. rewrite app_nil_r. reflexivity.
Qed.

End WithUnicodeTable.

Lemma extract_video_id_of_watch_url_witness :
  extract_video_id no_table (Script.youtube_url (py "a4sHHnlasPQ"))
  = py "a4sHHnlasPQ".
Proof.
  apply extract_video_id_of_watch_url; [discriminate | reflexivity].
Defined.

Lemma extract_video_id_part_of_input_witness :
  extract_video_id no_table (py "a b") <> [].
Proof.
  apply (proj2 (extract_video_id_part_of_input no_table (py "a b"))).
  discriminate.
Defined.

End ExtractExtras.

(** * Further properties of the text-completion client *)

Module ClientExtras.

Import Client ClientFacts.

Section WithService.

Variable SUCCESS : N.
Variable w : world.
Variable selected_model : model_config.

(** What the function does once it has the credential [p]. *)
Lemma format_with_credential (p raw_text prompt : str) (log : list event) :
  (environ_CLARIFAI_PAT w = Some p /\ truthy p = true) \/
  (truthy_opt (environ_CLARIFAI_PAT w) = false /\
   secrets_CLARIFAI_PAT w = Some p) ->
  format_with_clarifai_api SUCCESS w selected_model raw_text prompt log =
  let authorization := py "Key " ++ p in
  let req := build_request selected_model raw_text prompt in
  let answer := hosted_model w req authorization in
  let sent := log ++ [GetGrpcChannel; PostModelOutputs req authorization] in
  if negb (N.eqb (status_code answer) SUCCESS) then
    (Returned None,
     sent ++ [StError (api_error_prefix ++ status_description answer)])
  else
    match outputs answer with
    | [] => (Raised IndexError, sent)
    | o :: _ => (Returned (if truthy o then Some (strip o) else None), sent)
    end.
Proof.
  intros Hcred.
  unfold format_with_clarifai_api.
  destruct Hcred as [[Henv Hp] | [Henv Hsec]].
  - unfold bind, ret, try_except_KeyError, emit, raise.
    rewrite Henv. cbn [truthy_opt]. rewrite Hp. cbn [negb key_plus ret].
    destruct (negb (status_code _ =? SUCCESS)%N).
    + rewrite <- !app_assoc. reflexivity.
    + unfold first_output, ret, raise.
      destruct (outputs _); rewrite <- !app_assoc; reflexivity.
  - rewrite (secrets_lookup_some _ Hsec).
    unfold bind, ret, try_except_KeyError, emit, raise.
    rewrite Henv. cbn [negb key_plus ret].
    destruct (negb (status_code _ =? SUCCESS)%N).
    + rewrite <- !app_assoc. reflexivity.
    + unfold first_output, ret, raise.
      destruct (outputs _); rewrite <- !app_assoc; reflexivity.
Qed.

(** A secrets file without the entry: the error is reported, and the
    header cannot be built. *)
Lemma format_key_missing (raw_text prompt : str) (log : list event) :
  truthy_opt (environ_CLARIFAI_PAT w) = false ->
  secrets w = SecretsFile None ->
  format_with_clarifai_api SUCCESS w selected_model raw_text prompt log
  = (Raised TypeError, log ++ [StError missing_pat_message; GetGrpcChannel]).
Proof.
  intros Henv Hsec.
  unfold format_with_clarifai_api, bind, ret, try_except_KeyError,
    secrets_lookup, emit, raise.
  rewrite Henv, Hsec. cbn [negb key_plus raise].
  rewrite <- app_assoc. reflexivity.
Qed.

(** No secrets file: the exception of the lookup is not caught. *)
Lemma format_no_secrets_file (raw_text prompt : str) (log : list event) :
  truthy_opt (environ_CLARIFAI_PAT w) = false ->
  secrets w = NoSecretsFile ->
  format_with_clarifai_api SUCCESS w selected_model raw_text prompt log
  = (Raised StreamlitSecretNotFoundError, log).
Proof.
  intros Henv Hsec.
  unfold format_with_clarifai_api, bind, ret, try_except_KeyError,
    secrets_lookup, emit, raise.
  rewrite Henv, Hsec. reflexivity.
Qed.

(** Either source yields a credential, or the lookup in the secrets
    fails in one of its two ways. *)
Lemma credential_cases :
  (exists p,
     (environ_CLARIFAI_PAT w = Some p /\ truthy p = true) \/
     (truthy_opt (environ_CLARIFAI_PAT w) = false /\
      secrets_CLARIFAI_PAT w = Some p)) \/
  (truthy_opt (environ_CLARIFAI_PAT w) = false /\
   (secrets w = SecretsFile None \/ secrets w = NoSecretsFile)).
Proof.
  assert (truthy_opt (environ_CLARIFAI_PAT w) = false ->
          (exists p,
             (environ_CLARIFAI_PAT w = Some p /\ truthy p = true) \/
             (truthy_opt (environ_CLARIFAI_PAT w) = false /\
              secrets_CLARIFAI_PAT w = Some p)) \/
          (truthy_opt (environ_CLARIFAI_PAT w) = false /\
           (secrets w = SecretsFile None \/ secrets w = NoSecretsFile)))
    as Sec.
  { intros T. unfold secrets_CLARIFAI_PAT.
    destruct (secrets w) as [|[p|]].
    - right. split; [exact T | right; reflexivity].
    - left. exists p. right. split; [exact T | reflexivity].
    - right. split; [exact T | left; reflexivity]. }
  destruct (environ_CLARIFAI_PAT w) as [e|] eqn:E.
  - destruct (truthy e) eqn:T.
    + left. exists e. left. split; [reflexivity | exact T].
    + apply Sec. exact T.
  - apply Sec. reflexivity.
Qed.

(** X12. With a credential and a response of status [SUCCESS], the function
    returns the text of the first output stripped ([None] when that text is
    empty), after one completion call and without any [st.error]; a text
    of whitespace only comes back as the empty string, not as [None]. *)
Theorem successful_completion_returns_stripped_text
    (p raw_text prompt o : str) (rest : list str) (log : list event) :
  (environ_CLARIFAI_PAT w = Some p /\ truthy p = true) \/
  (truthy_opt (environ_CLARIFAI_PAT w) = false /\
   secrets_CLARIFAI_PAT w = Some p) ->
  let authorization := py "Key " ++ p in
  let req := build_request selected_model raw_text prompt in
  status_code (hosted_model w req authorization) = SUCCESS ->
  outputs (hosted_model w req authorization) = o :: rest ->
  format_with_clarifai_api SUCCESS w selected_model raw_text prompt log
  = (Returned (if truthy o then Some (strip o) else None),
     log ++ [GetGrpcChannel; PostModelOutputs req authorization]) /\
  (o <> [] -> allws o ->
   fst (format_with_clarifai_api SUCCESS w selected_model raw_text prompt log)
   = Returned (Some [])).
Proof.
  intros Hcred authorization req Hst Hout.
  rewrite (format_with_credential raw_text prompt log Hcred).
  cbv zeta. fold authorization. fold req.
  rewrite Hst, N.eqb_refl, Hout. cbn [negb]. split; [reflexivity|].
  intros NN Hws. cbn [fst]. rewrite (strip_allws Hws).
  destruct o; [congruence | reflexivity].
Qed.

(** X13. With a credential, every invocation makes exactly one completion
    call, whatever the hosted model answers: the request built from the
    prompt and the text, authorized with ['Key '] and the credential. *)
Theorem one_completion_call_per_invocation
    (p raw_text prompt : str) (log : list event) :
  (environ_CLARIFAI_PAT w = Some p /\ truthy p = true) \/
  (truthy_opt (environ_CLARIFAI_PAT w) = false /\
   secrets_CLARIFAI_PAT w = Some p) ->
  completion_calls
    (snd (format_with_clarifai_api SUCCESS w selected_model raw_text prompt log))
  = completion_calls log
    ++ [PostModelOutputs (build_request selected_model raw_text prompt)
                         (py "Key " ++ p)].
Proof.
  intros Hcred. rewrite (format_with_credential raw_text prompt log Hcred).
  cbv zeta. unfold completion_calls.
  destruct (negb (status_code _ =? SUCCESS)%N).
  - cbn [snd]. rewrite !filter_app. cbn [filter is_post].
    rewrite app_nil_r. reflexivity.
  - destruct (outputs _); cbn [snd]; rewrite filter_app; reflexivity.
Qed.

(** X14. A response of status [SUCCESS] without any output makes the
    function raise [IndexError], after the completion call. *)
Theorem empty_outputs_raise_index_error
    (p raw_text prompt : str) (log : list event) :
  (environ_CLARIFAI_PAT w = Some p /\ truthy p = true) \/
  (truthy_opt (environ_CLARIFAI_PAT w) = false /\
   secrets_CLARIFAI_PAT w = Some p) ->
  let authorization := py "Key " ++ p in
  let req := build_request selected_model raw_text prompt in
  status_code (hosted_model w req authorization) = SUCCESS ->
  outputs (hosted_model w req authorization) = [] ->
  format_with_clarifai_api SUCCESS w selected_model raw_text prompt log
  = (Raised IndexError,
     log ++ [GetGrpcChannel; PostModelOutputs req authorization]).
Proof.
  intros Hcred authorization req Hst Hout.
  rewrite (format_with_credential raw_text prompt log Hcred).
  cbv zeta. fold authorization. fold req.
  rewrite Hst, N.eqb_refl, Hout. reflexivity.
Qed.

(** X15. Whatever the world, a text the function returns is stripped: it
    has no whitespace at either end. *)
Theorem returned_text_is_stripped
    (raw_text prompt r : str) (log : list event) :
  fst (format_with_clarifai_api SUCCESS w selected_model raw_text prompt log)
  = Returned (Some r) ->
  strip r = r.
Proof.
  destruct credential_cases as [[p Hcred] | [Henv [Hsec | Hsec]]].
  - rewrite (format_with_credential raw_text prompt log Hcred). cbv zeta.
    destruct (negb (status_code _ =? SUCCESS)%N); [discriminate|].
    destruct (outputs _) as [|o rest]; [discriminate|].
    destruct (truthy o); [|discriminate].
    cbn [fst]. intros H. inversion H. apply strip_idem.
  - rewrite (format_key_missing raw_text prompt log Henv Hsec).
    discriminate.
  - rewrite (format_no_secrets_file raw_text prompt log Henv Hsec).
    discriminate.
Qed.


End WithService.


(** X16. The environment variable takes precedence: when it holds a
    non-empty token, the secrets are not consulted, so two worlds that
    differ in their secrets only behave alike. *)
Theorem environment_credential_takes_precedence
    (SUCCESS : N) (w w' : world) (selected_model : model_config)
    (raw_text prompt : str) (log : list event) :
  truthy_opt (environ_CLARIFAI_PAT w) = true ->
  environ_CLARIFAI_PAT w' = environ_CLARIFAI_PAT w ->
  hosted_model w' = hosted_model w ->
  format_with_clarifai_api SUCCESS w' selected_model raw_text prompt log
  = format_with_clarifai_api SUCCESS w selected_model raw_text prompt log.
Proof.
  intros Henv Heq Hm.
  destruct (environ_CLARIFAI_PAT w) as [p|] eqn:E; [|discriminate].
  cbn [truthy_opt] in Henv.
  rewrite (@format_with_credential SUCCESS w selected_model p raw_text prompt
             log (or_introl (conj E Henv))).
  rewrite (@format_with_credential SUCCESS w' selected_model p raw_text prompt
             log (or_introl (conj Heq Henv))).
  rewrite Hm. reflexivity.
Qed.

Lemma successful_completion_returns_stripped_text_witness :
  format_with_clarifai_api 10000
    (mkWorld None (SecretsFile (Some (py "pat")))
             (fun _ _ => mkResponse 10000 (py "Ok") [py "  Hello, world. "]))
    llama2_7b (py "hello world") format_prompt []
  = (Returned (Some (py "Hello, world.")),
     [GetGrpcChannel;
      PostModelOutputs (build_request llama2_7b (py "hello world") format_prompt)
                       (py "Key pat")]).
Proof.
  apply (proj1 (@successful_completion_returns_stripped_text 10000%N
                  (mkWorld None (SecretsFile (Some (py "pat")))
                     (fun _ _ => mkResponse 10000 (py "Ok")
                                            [py "  Hello, world. "]))
                  llama2_7b (py "pat") (py "hello world") format_prompt
                  (py "  Hello, world. ") [] []
                  (or_intror (conj eq_refl eq_refl)) eq_refl eq_refl)).
Defined.

Lemma one_completion_call_per_invocation_witness :
  completion_calls
    (snd (format_with_clarifai_api 10000 world_rejecting llama2_7b
            (py "hello world") format_prompt []))
  = completion_calls []
    ++ [PostModelOutputs (build_request llama2_7b (py "hello world") format_prompt)
                         (py "Key " ++ py "pat")].
Proof.
  apply one_completion_call_per_invocation. left. split; reflexivity.
Defined.

Lemma empty_outputs_raise_index_error_witness :
  format_with_clarifai_api 10000
    (mkWorld (Some (py "pat")) (SecretsFile None)
             (fun _ _ => mkResponse 10000 (py "Ok") []))
    llama2_7b (py "hello world") format_prompt []
  = (Raised IndexError,
     [] ++ [GetGrpcChannel;
            PostModelOutputs
              (build_request llama2_7b (py "hello world") format_prompt)
              (py "Key " ++ py "pat")]).
Proof.
  apply (@empty_outputs_raise_index_error 10000%N
           (mkWorld (Some (py "pat")) (SecretsFile None)
                    (fun _ _ => mkResponse 10000 (py "Ok") []))
           llama2_7b (py "pat") (py "hello world") format_prompt []);
    [left; split; reflexivity | reflexivity | reflexivity].
Defined.

Lemma returned_text_is_stripped_witness :
  strip (py "Hello, world.") = py "Hello, world.".
Proof.
  apply (@returned_text_is_stripped 10000%N
           (mkWorld None (SecretsFile (Some (py "pat")))
              (fun _ _ => mkResponse 10000 (py "Ok") [py "  Hello, world. "]))
           llama2_7b (py "hello world") format_prompt (py "Hello, world.") []).
  vm_compute. reflexivity.
Defined.

Lemma environment_credential_takes_precedence_witness :
  format_with_clarifai_api 10000
    (mkWorld (Some (py "pat")) (SecretsFile (Some (py "other")))
             (hosted_model world_rejecting))
    llama2_7b (py "hello world") format_prompt []
  = format_with_clarifai_api 10000 world_rejecting llama2_7b
      (py "hello world") format_prompt [].
Proof.
  apply environment_credential_takes_precedence; reflexivity.
Defined.

End ClientExtras.

(** * The script *)

Module ScriptFacts.

Import Client Script ClientExtras.

Lemma ui_calls_app (a b : list ui_event) :
  ui_calls (a ++ b) = ui_calls a ++ ui_calls b.
Proof. unfold ui_calls. apply flat_map_app. Qed.

Lemma call_eq (A : Type) (m : M A) (log : list ui_event) :
  call m log = (fst (m []), log ++ map UiClient (snd (m []))).
Proof. unfold call. destruct (m []). reflexivity. Qed.

Section WithServices.

Variable uni : char -> bool.
Variable ydl : Fetch.downloader.
Variable SUCCESS : N.
Variable w : world.
Variable selected_model : model_config.

(** An invocation of the client makes no completion call, or the one for
    its prompt and text. *)
Lemma format_calls (raw_text prompt : str) :
  ui_calls (map UiClient
     (snd (format_with_clarifai_api SUCCESS w selected_model raw_text prompt [])))
  = [] \/
  ui_calls (map UiClient
     (snd (format_with_clarifai_api SUCCESS w selected_model raw_text prompt [])))
  = [build_request selected_model raw_text prompt].
Proof.
  destruct (credential_cases w) as [[p Hcred] | [Henv [Hsec | Hsec]]].
  - right.
    rewrite (@format_with_credential SUCCESS w selected_model p raw_text prompt
               [] Hcred).
    cbv zeta. destruct (negb (status_code _ =? SUCCESS)%N); [reflexivity|].
    destruct (Client.outputs _); reflexivity.
  - left.
    rewrite (@format_key_missing SUCCESS w selected_model raw_text prompt
               [] Henv Hsec).
    reflexivity.
  - left.
    rewrite (@format_no_secrets_file SUCCESS w selected_model raw_text prompt
               [] Henv Hsec).
    reflexivity.
Qed.

(** The first step always ends normally, and calls nothing. *)
Lemma fetch_step_eq (i : inputs) (log : list ui_event) :
  fetch_step uni ydl i log =
  if truthy (url_or_id i) then
    let video_id := Extract.extract_video_id uni (url_or_id i) in
    match Fetch.download_subtitles ydl video_id (temp_file_before i) with
    | (Fetch.Returned t, file) =>
        (Returned (Some t, file),
         log ++ [UiVideo (youtube_url video_id);
                 UiTextArea (py "Subtitles:") (Some t)])
    | (Fetch.Raised e, file) =>
        (Returned (None, file),
         log ++ [UiVideo (youtube_url video_id);
                 UiError (an_error_occurred ++ Fetch.message e)])
    end
  else (Returned (None, temp_file_before i), log).
Proof.
  unfold fetch_step. destruct (truthy (url_or_id i)); [|reflexivity].
  cbv zeta. unfold sbind, show, sret.
  destruct (Fetch.download_subtitles ydl _ (temp_file_before i)) as [[t|e] file];
    rewrite <- app_assoc; reflexivity.
Qed.

(** The last step makes at most one call, for the title prompt, on a text
    that is not empty. *)
Lemma title_step_calls (i : inputs) (formatted : option str)
    (log : list ui_event) :
  exists calls,
    ui_calls (snd (title_step SUCCESS w selected_model i formatted log))
    = ui_calls log ++ calls /\
    length calls <= 1 /\
    (calls <> [] -> generate_clicked i = true) /\
    forall req, In req calls ->
      exists raw_text,
        formatted = Some raw_text /\ truthy raw_text = true /\
        req = build_request selected_model raw_text video_prompt.
Proof.
  assert (forall l : list ui_event,
            ui_calls l = ui_calls log ->
            exists calls,
              ui_calls l = ui_calls log ++ calls /\
              length calls <= 1 /\
              (calls <> [] -> generate_clicked i = true) /\
              forall req, In req calls ->
                exists raw_text,
                  formatted = Some raw_text /\ truthy raw_text = true /\
                  req = build_request selected_model raw_text video_prompt)
    as Nothing.
  { intros l E. exists []. rewrite app_nil_r.
    split; [exact E|]. split; [simpl; lia|].
    split; [intros NN; exfalso; apply NN; reflexivity | intros ? []]. }
  unfold title_step.
  destruct formatted as [ft|]; cbn [truthy_opt];
    [|apply Nothing; reflexivity].
  destruct (truthy ft) eqn:T; [|apply Nothing; reflexivity].
  unfold sbind, show, sret. destruct (generate_clicked i).
  - rewrite call_eq.
    destruct (format_calls ft video_prompt) as [C | C];
      destruct (format_with_clarifai_api SUCCESS w selected_model ft
                  video_prompt []) as [[r2|e2] evs2];
      cbn [fst snd] in C |- *.
    + apply Nothing. rewrite !ui_calls_app, C. cbn. rewrite !app_nil_r.
      reflexivity.
    + apply Nothing. rewrite !ui_calls_app, C. cbn. rewrite !app_nil_r.
      reflexivity.
    + exists [build_request selected_model ft video_prompt].
      split; [rewrite !ui_calls_app, C; cbn; rewrite !app_nil_r; reflexivity|].
      split; [simpl; lia|]. split; [reflexivity|]. intros req [<- | []].
      exists ft. split; [reflexivity|]. split; [exact T | reflexivity].
    + exists [build_request selected_model ft video_prompt].
      split; [rewrite !ui_calls_app, C; cbn; rewrite !app_nil_r; reflexivity|].
      split; [simpl; lia|]. split; [reflexivity|]. intros req [<- | []].
      exists ft. split; [reflexivity|]. split; [exact T | reflexivity].
  - apply Nothing. cbn [snd]. rewrite ui_calls_app. cbn. apply app_nil_r.
Qed.

End WithServices.

End ScriptFacts.

Module ScriptExtras.

Import Client Script ClientExtras ScriptFacts.

Section WithServices.

Variable uni : char -> bool.
Variable ydl : Fetch.downloader.
Variable SUCCESS : N.
Variable w : world.
Variable selected_model : model_config.

(** X17. A run makes a completion call only when the text box is not
    empty, the download returned a non-empty transcript and one of the two
    buttons was clicked. *)
Theorem completion_call_needs_transcript (i : inputs) (log : list ui_event) :
  ui_calls (snd (run_script uni ydl SUCCESS w selected_model i log))
  <> ui_calls log ->
  truthy (url_or_id i) = true /\
  (exists t after,
     Fetch.download_subtitles ydl (Extract.extract_video_id uni (url_or_id i))
                              (temp_file_before i)
     = (Fetch.Returned t, after) /\ truthy t = true) /\
  (punctuate_clicked i = true \/ generate_clicked i = true).
Proof.
  intros H. unfold run_script, sbind in H. rewrite fetch_step_eq in H.
  destruct (truthy (url_or_id i)) eqn:U.
  2:{ exfalso. apply H. reflexivity. }
  cbv zeta in H.
  destruct (Fetch.download_subtitles ydl _ (temp_file_before i))
    as [[t|e] after] eqn:D.
  2:{ exfalso. apply H. cbn [fst snd truthy_opt sret].
      rewrite ui_calls_app. cbn. apply app_nil_r. }
  cbn [fst snd truthy_opt] in H. destruct (truthy t) eqn:T.
  2:{ exfalso. apply H. cbn [sret snd].
      rewrite ui_calls_app. cbn. apply app_nil_r. }
  split; [reflexivity|].
  split; [exists t, after; split; [reflexivity | exact T]|].
  destruct (punctuate_clicked i); [left; reflexivity|].
  destruct (generate_clicked i) eqn:G; [right; reflexivity|].
  exfalso. apply H. cbn [sret].
  match goal with
  | |- context [title_step SUCCESS w selected_model i ?f ?l] =>
      destruct (title_step_calls SUCCESS w selected_model i f l)
        as [calls [E [_ [Hg _]]]];
      destruct (title_step SUCCESS w selected_model i f l) as [[u|e] log2]
  end;
    (assert (calls = []) as ->
       by (destruct calls; [reflexivity|];
           assert (false = true) by (rewrite <- G; apply Hg; discriminate);
           discriminate));
    unfold sret; cbn [snd] in E |- *; rewrite E, ui_calls_app; cbn;
    rewrite !app_nil_r; reflexivity.
Qed.

(** X18. A run that cannot fetch the captions shows the video and the
    error, and ends there: when the downloader raises, or leaves no caption
    file, the message is shown after ["An error occurred: "], no completion
    call is made and the stored text is as it was, whatever the buttons. *)
Theorem failed_download_is_reported (i : inputs) (log : list ui_event) :
  truthy (url_or_id i) = true ->
  let video_id := Extract.extract_video_id uni (url_or_id i) in
  let stored := match stored_formatted_text i with
                | Some v => v
                | None => None
                end in
  (forall e after,
     ydl video_id (temp_file_before i) = (Some e, after) ->
     run_script uni ydl SUCCESS w selected_model i log
     = (Returned (mkOutcome after stored),
        log ++ [UiVideo (youtube_url video_id);
                UiError (an_error_occurred ++ Fetch.message e)])) /\
  (ydl video_id (temp_file_before i) = (None, None) ->
   run_script uni ydl SUCCESS w selected_model i log
   = (Returned (mkOutcome None stored),
      log ++ [UiVideo (youtube_url video_id);
              UiError (an_error_occurred
                       ++ Fetch.message Fetch.FileNotFoundError)])).
Proof.
  intros U video_id stored. split.
  - intros e after D. unfold run_script, sbind. rewrite fetch_step_eq, U.
    cbv zeta. unfold Fetch.download_subtitles. fold video_id. rewrite D.
    reflexivity.
  - intros D. unfold run_script, sbind. rewrite fetch_step_eq, U.
    cbv zeta. unfold Fetch.download_subtitles. fold video_id. rewrite D.
    reflexivity.
Qed.

(** X19. A run makes at most two completion calls, for the punctuation
    prompt or the title prompt, and never on an empty text. *)
Theorem at_most_two_completion_calls (i : inputs) (log : list ui_event) :
  exists calls,
    ui_calls (snd (run_script uni ydl SUCCESS w selected_model i log))
    = ui_calls log ++ calls /\
    length calls <= 2 /\
    forall req, In req calls ->
      exists raw_text prompt,
        req = build_request selected_model raw_text prompt /\
        truthy raw_text = true /\
        (prompt = format_prompt \/ prompt = video_prompt).
Proof.
  assert (forall (pre : list request) (formatted : option str)
                 (after : Fetch.temp_file) (log1 : list ui_event),
            ui_calls log1 = ui_calls log ++ pre ->
            length pre <= 1 ->
            (forall req, In req pre ->
               exists raw_text prompt,
                 req = build_request selected_model raw_text prompt /\
                 truthy raw_text = true /\
                 (prompt = format_prompt \/ prompt = video_prompt)) ->
            exists calls,
              ui_calls
                (snd ((title_step SUCCESS w selected_model i formatted ;;~
                       sret (mkOutcome after formatted)) log1))
              = ui_calls log ++ calls /\
              length calls <= 2 /\
              forall req, In req calls ->
                exists raw_text prompt,
                  req = build_request selected_model raw_text prompt /\
                  truthy raw_text = true /\
                  (prompt = format_prompt \/ prompt = video_prompt)) as Last.
  { intros pre formatted after log1 H1 Hlen Hpre.
    destruct (title_step_calls SUCCESS w selected_model i formatted log1)
      as [calls2 [E [L [_ In2]]]].
    exists (pre ++ calls2). unfold sbind, sret.
    destruct (title_step SUCCESS w selected_model i formatted log1)
      as [[u|e] log2]; cbn [snd] in E |- *;
      (rewrite E, H1, <- app_assoc; split; [reflexivity|];
       split; [rewrite length_app; lia|];
       intros req Hreq; apply in_app_or in Hreq;
       destruct Hreq as [Hreq | Hreq]; [apply Hpre; exact Hreq|];
       destruct (In2 req Hreq) as [raw [_ [Hraw ->]]];
       exists raw, video_prompt; split; [reflexivity|];
       split; [exact Hraw | right; reflexivity]). }
  assert (exists calls : list request,
            ui_calls log = ui_calls log ++ calls /\ length calls <= 2 /\
            forall req, In req calls ->
              exists raw_text prompt,
                req = build_request selected_model raw_text prompt /\
                truthy raw_text = true /\
                (prompt = format_prompt \/ prompt = video_prompt)) as Nothing.
  { exists []. rewrite app_nil_r.
    split; [reflexivity|]. split; [simpl; lia | intros ? []]. }
  unfold run_script. unfold sbind at 1. rewrite fetch_step_eq.
  destruct (truthy (url_or_id i)); [|exact Nothing].
  cbv zeta.
  destruct (Fetch.download_subtitles ydl _ (temp_file_before i))
    as [[t|e] after]; cbn [fst snd truthy_opt].
  2:{ cbn [sret snd]. rewrite ui_calls_app. cbn. rewrite app_nil_r.
      exact Nothing. }
  destruct (truthy t) eqn:T.
  2:{ cbn [sret snd]. rewrite ui_calls_app. cbn. rewrite app_nil_r.
      exact Nothing. }
  unfold sbind at 1. destruct (punctuate_clicked i).
  - rewrite call_eq.
    destruct (format_calls SUCCESS w selected_model t format_prompt) as [C | C];
      destruct (format_with_clarifai_api SUCCESS w selected_model t
                  format_prompt []) as [[r1|e1] evs1];
      cbn [fst snd] in C |- *.
    + apply (Last []); [| simpl; lia | intros ? []].
      rewrite !ui_calls_app, C. cbn. rewrite !app_nil_r. reflexivity.
    + rewrite !ui_calls_app, C. cbn. rewrite !app_nil_r. exact Nothing.
    + apply (Last [build_request selected_model t format_prompt]);
        [| simpl; lia |].
      * rewrite !ui_calls_app, C. cbn [ui_calls flat_map app].
        rewrite !app_nil_r. reflexivity.
      * intros req [<- | []]. exists t, format_prompt.
        split; [reflexivity|]. split; [exact T | left; reflexivity].
    + exists [build_request selected_model t format_prompt].
      rewrite !ui_calls_app, C. cbn [ui_calls flat_map app].
      rewrite !app_nil_r.
      split; [reflexivity|]. split; [simpl; lia|].
      intros req [<- | []]. exists t, format_prompt.
      split; [reflexivity|]. split; [exact T | left; reflexivity].
  - cbn [sret]. apply (Last []); [| simpl; lia | intros ? []].
    rewrite !ui_calls_app. cbn. rewrite !app_nil_r. reflexivity.
Qed.


(** X21. When both buttons are clicked and the punctuation succeeds with a
    text that is not blank, the title is asked for the text just
    punctuated, not for the stored one: the run makes the punctuation call
    on the subtitles and then the title call on the stripped answer, which
    is also the text it stores when it ends normally. *)
Theorem title_uses_fresh_punctuation
    (i : inputs) (log : list ui_event) (t : str) (after : Fetch.temp_file)
    (p o : str) (rest : list str) :
  truthy (url_or_id i) = true ->
  Fetch.download_subtitles ydl (Extract.extract_video_id uni (url_or_id i))
                           (temp_file_before i)
  = (Fetch.Returned t, after) ->
  truthy t = true ->
  punctuate_clicked i = true ->
  generate_clicked i = true ->
  (environ_CLARIFAI_PAT w = Some p /\ truthy p = true) \/
  (truthy_opt (environ_CLARIFAI_PAT w) = false /\
   secrets_CLARIFAI_PAT w = Some p) ->
  let answer :=
    hosted_model w (build_request selected_model t format_prompt)
                 (py "Key " ++ p) in
  status_code answer = SUCCESS ->
  Client.outputs answer = o :: rest ->
  truthy (strip o) = true ->
  ui_calls (snd (run_script uni ydl SUCCESS w selected_model i log))
  = ui_calls log
    ++ [build_request selected_model t format_prompt;
        build_request selected_model (strip o) video_prompt] /\
  (forall out,
     fst (run_script uni ydl SUCCESS w selected_model i log) = Returned out ->
     formatted_text_after out = Some (strip o) /\ temp_file_after out = after).
Proof.
  intros U D T P G Hcred answer Hst Hout Hso.
  assert (truthy o = true) as Ho by (destruct o; [discriminate | reflexivity]).
  remember (run_script uni ydl SUCCESS w selected_model i log) as R eqn:HR.
  unfold run_script in HR. unfold sbind at 1 in HR.
  rewrite fetch_step_eq, U in HR. cbv zeta in HR. rewrite D in HR.
  cbn [fst snd truthy_opt] in HR. rewrite T, P in HR.
  unfold sbind at 1 in HR. rewrite call_eq in HR.
  rewrite (@format_with_credential SUCCESS w selected_model p t format_prompt
             [] Hcred) in HR.
  cbv zeta in HR. fold answer in HR. rewrite Hst, N.eqb_refl, Hout, Ho in HR.
  cbn [negb fst snd app map] in HR.
  unfold sbind, title_step in HR. cbn [truthy_opt] in HR. rewrite Hso, G in HR.
  unfold sbind, show, sret in HR. rewrite call_eq in HR.
  rewrite (@format_with_credential SUCCESS w selected_model p (strip o)
             video_prompt [] Hcred) in HR.
  cbv zeta in HR.
  set (answer2 := hosted_model w
                    (build_request selected_model (strip o) video_prompt)
                    (py "Key " ++ p)) in HR.
  destruct (negb (status_code answer2 =? SUCCESS)%N);
    [|destruct (Client.outputs answer2)];
    cbn [fst snd app map] in HR; subst R; cbn [fst snd];
    rewrite !ui_calls_app; cbn [ui_calls flat_map app];
    rewrite !app_nil_r, <- ?app_assoc;
    (split; [reflexivity|]); intros out Hr; inversion Hr;
    split; reflexivity.
Qed.

End WithServices.

Lemma completion_call_needs_transcript_witness :
  let i := mkInputs (py "a4sHHnlasPQ") true false None None in
  truthy (url_or_id i) = true /\
  (exists t after,
     Fetch.download_subtitles (fun _ _ => (None, Some doc_two_cues))
       (Extract.extract_video_id Extract.no_table (url_or_id i))
       (temp_file_before i)
     = (Fetch.Returned t, after) /\ truthy t = true) /\
  (punctuate_clicked i = true \/ generate_clicked i = true).
Proof.
  apply (@completion_call_needs_transcript Extract.no_table
           (fun _ _ => (None, Some doc_two_cues)) 10000%N world_rejecting
           llama2_7b (mkInputs (py "a4sHHnlasPQ") true false None None) []).
  vm_compute. discriminate.
Defined.

Lemma failed_download_is_reported_witness :
  run_script Extract.no_table
    (fun _ f => (Some (Fetch.DownloadError (py "Video unavailable")), f))
    10000 world_rejecting llama2_7b
    (mkInputs (py "a4sHHnlasPQ") true true None None) []
  = (Returned (mkOutcome None None),
     [] ++ [UiVideo (youtube_url (py "a4sHHnlasPQ"));
            UiError (an_error_occurred ++ py "Video unavailable")]).
Proof.
  apply (proj1 (@failed_download_is_reported Extract.no_table
                  (fun _ f => (Some (Fetch.DownloadError
                                       (py "Video unavailable")), f))
                  10000%N world_rejecting llama2_7b
                  (mkInputs (py "a4sHHnlasPQ") true true None None) []
                  eq_refl)
               (Fetch.DownloadError (py "Video unavailable")) None).
  reflexivity.
Defined.


Lemma title_uses_fresh_punctuation_witness :
  let w := mkWorld (Some (py "pat")) (SecretsFile None)
             (fun _ _ => mkResponse 10000 (py "Ok") [py " Hello, world. "]) in
  let i := mkInputs (py "a4sHHnlasPQ") true true None
                    (Some (Some (py "old text"))) in
  ui_calls (snd (run_script Extract.no_table
                   (fun _ _ => (None, Some doc_two_cues)) 10000 w llama2_7b i []))
  = ui_calls []
    ++ [build_request llama2_7b (py "hello world") format_prompt;
        build_request llama2_7b (strip (py " Hello, world. ")) video_prompt] /\
  (forall out,
     fst (run_script Extract.no_table
            (fun _ _ => (None, Some doc_two_cues)) 10000 w llama2_7b i [])
     = Returned out ->
     formatted_text_after out = Some (strip (py " Hello, world. ")) /\
     temp_file_after out = None).
Proof.
  intros w i.
  apply (@title_uses_fresh_punctuation Extract.no_table
           (fun _ _ => (None, Some doc_two_cues)) 10000%N w llama2_7b i []
           (py "hello world") None (py "pat") (py " Hello, world. ") []);
    try reflexivity.
  left. split; reflexivity.
Defined.

End ScriptExtras.
